(** * dbtuple: the versioned record node of tuple.h

    A shallow embedding of [struct dbtuple] (src/tuple.h): the bit-packed
    header word, the allocation arithmetic, the optimistic reader
    [record_at] / [stable_read] and the writer [write_record_at], run by a
    single thread over an explicit heap of nodes.  Event counters, the
    prefetch hint, [nop_pause] and the compiler fences change no value the
    functions compute and are left out. *)

From Stdlib Require Import ZArith Lia Bool List Sorted.
From Stdlib Require Import Strings.Byte Strings.String.
From stdpp Require Import base option list gmap.

Local Open Scope Z_scope.

(** ** Machine integers

    [version_t] is [uint32_t], [node_size_type] is [uint16_t], [tid_t] is
    [uint64_t] and [size_type] is [size_t] (64 bits on amd64).  Values are
    kept in [Z]; conversions to a narrower type wrap explicitly. *)

Definition to_u16 (x : Z) : Z := x mod 2 ^ 16.
Definition to_u32 (x : Z) : Z := x mod 2 ^ 32.
Definition to_u64 (x : Z) : Z := x mod 2 ^ 64.

(** [~x] on a [uint32_t]. *)
Definition not32 (x : Z) : Z := Z.lxor x 0xFFFFFFFF.

Definition is_u16 (x : Z) : Prop := 0 <= x < 2 ^ 16.
Definition is_u32 (x : Z) : Prop := 0 <= x < 2 ^ 32.
Definition is_u64 (x : Z) : Prop := 0 <= x < 2 ^ 64.

(** [std::numeric_limits<node_size_type>::max()]. *)
Definition max_node_size : Z := 65535.

Definition MIN_TID : Z := 0.
Definition MAX_TID : Z := to_u64 (-1).

(** ** The header word *)

Module Hdr.

Definition HDR_LOCKED_MASK : Z := 0x1.

Definition HDR_TYPE_SHIFT : Z := 1.
Definition HDR_TYPE_MASK : Z := Z.shiftl 0x1 HDR_TYPE_SHIFT.

Definition HDR_DELETING_SHIFT : Z := 2.
Definition HDR_DELETING_MASK : Z := Z.shiftl 0x1 HDR_DELETING_SHIFT.

Definition HDR_ENQUEUED_SHIFT : Z := 3.
Definition HDR_ENQUEUED_MASK : Z := Z.shiftl 0x1 HDR_ENQUEUED_SHIFT.

Definition HDR_LATEST_SHIFT : Z := 4.
Definition HDR_LATEST_MASK : Z := Z.shiftl 0x1 HDR_LATEST_SHIFT.

Definition HDR_VERSION_SHIFT : Z := 5.
Definition HDR_VERSION_MASK : Z :=
  to_u32 (Z.shiftl (to_u32 (-1)) HDR_VERSION_SHIFT).

(** A [version_t] converted to [bool]: non-zero is true. *)
Definition nonzero (x : Z) : bool := negb (x =? 0).

Definition IsLocked (v : Z) : bool := nonzero (Z.land v HDR_LOCKED_MASK).
Definition IsBigType (v : Z) : bool := nonzero (Z.land v HDR_TYPE_MASK).
Definition IsDeleting (v : Z) : bool := nonzero (Z.land v HDR_DELETING_MASK).
Definition IsEnqueued (v : Z) : bool := nonzero (Z.land v HDR_ENQUEUED_MASK).
Definition IsLatest (v : Z) : bool := nonzero (Z.land v HDR_LATEST_MASK).

Definition Version (v : Z) : Z :=
  Z.shiftr (Z.land v HDR_VERSION_MASK) HDR_VERSION_SHIFT.

(** The header that [unlock] stores, computed from the header [v] it
    loaded: the statements of [unlock] after its first INVARIANT. *)
Definition unlock_word (v : Z) : Z :=
  let n := Version v in
  let v := Z.land v (not32 HDR_VERSION_MASK) in
  let v := Z.lor v
             (Z.land (to_u32 (Z.shiftl (to_u32 (n + 1)) HDR_VERSION_SHIFT))
                     HDR_VERSION_MASK) in
  let v := Z.land v (not32 HDR_LOCKED_MASK) in
  v.

(** The header that a successful CAS of [lock] installs. *)
Definition lock_word (v : Z) : Z := Z.lor v HDR_LOCKED_MASK.

(** [set_latest] on the header word. *)
Definition set_latest_word (latest : bool) (v : Z) : Z :=
  if latest then Z.lor v HDR_LATEST_MASK
  else Z.land v (not32 HDR_LATEST_MASK).

(** [mark_deleting] on the header word. *)
Definition deleting_word (v : Z) : Z := Z.lor v HDR_DELETING_MASK.

End Hdr.

Import Hdr.

(** ** Nodes and the heap

    A node is one block: the fixed prefix [hdr | version | size |
    alloc_size], the [next] slot when the node is big, and [alloc_size]
    payload bytes.  A pointer to a node is a location of the heap; the null
    pointer is [None]. *)

Abbreviation loc := positive.

Record dbtuple : Type := mk_dbtuple {
  hdr : Z;                  (* volatile version_t hdr *)
  version : Z;              (* tid_t version *)
  size : Z;                 (* node_size_type size *)
  alloc_size : Z;           (* node_size_type alloc_size *)
  next : option loc;        (* d->big.next, present in big nodes only *)
  value_start : list byte   (* d->big.value_start / d->small.value_start *)
}.

Abbreviation heap := (gmap loc dbtuple).

(** [sizeof(dbtuple)]: the struct is PACKED, its fields lie end to end
    (4 + 8 + 2 + 2 bytes) and the trailing [d[0]] takes no room. *)
Definition sizeof_dbtuple : Z := 4 + 8 + 2 + 2.

(** [sizeof(dbtuple * )] on amd64. *)
Definition sizeof_ptr : Z := 8.

(** ** Outcomes of a run by one thread *)

Inductive outcome (A : Type) : Type :=
| Ok (a : A)
| InvariantViolation   (* an INVARIANT whose condition is false *)
| Spins                (* waits on a lock bit that no other thread clears *)
| Wild                 (* dereferences a pointer that is no live node *)
| OutOfFuel.

Arguments Ok {A} a.
Arguments InvariantViolation {A}.
Arguments Spins {A}.
Arguments Wild {A}.
Arguments OutOfFuel {A}.

Definition obind {A B : Type} (o : outcome A) (k : A -> outcome B) : outcome B :=
  match o with
  | Ok a => k a
  | InvariantViolation => InvariantViolation
  | Spins => Spins
  | Wild => Wild
  | OutOfFuel => OutOfFuel
  end.

(** Code that only reads the heap ([const] member functions). *)
Definition R (A : Type) : Type := heap -> outcome A.

Definition rret {A : Type} (a : A) : R A := fun _ => Ok a.
Definition rbind {A B : Type} (m : R A) (k : A -> R B) : R B :=
  fun h => obind (m h) (fun a => k a h).

(** Code that updates the heap. *)
Definition M (A : Type) : Type := heap -> outcome (A * heap).

Definition ret {A : Type} (a : A) : M A := fun h => Ok (a, h).
Definition bind {A B : Type} (m : M A) (k : A -> M B) : M B :=
  fun h => obind (m h) (fun ah => k (fst ah) (snd ah)).
Definition read {A : Type} (m : R A) : M A :=
  fun h => obind (m h) (fun a => Ok (a, h)).

Declare Scope dbt_scope.
Delimit Scope dbt_scope with dbt.
Notation "x <~ m ;; k" := (rbind m (fun x => k))
  (at level 100, m at next level, right associativity) : dbt_scope.
Notation "x <- m ;; k" := (bind m (fun x => k))
  (at level 100, m at next level, right associativity) : dbt_scope.
Notation "m ;;; k" := (bind m (fun _ => k))
  (at level 100, right associativity) : dbt_scope.
Local Open Scope dbt_scope.

(** Modelled from the spec: the [INVARIANT] macro of macros.h, which is not
    part of the sources at hand.  An invariant violation is a programming
    error that trips an assertion in checked builds and is undefined in
    release builds; the run ends in [InvariantViolation]. *)
Definition INVARIANT (b : bool) : M unit :=
  fun h => if b then Ok (tt, h) else InvariantViolation.

Definition RINVARIANT (b : bool) : R unit :=
  fun _ => if b then Ok tt else InvariantViolation.

(** [*this]: the node a pointer refers to. *)
Definition deref (this : loc) : R dbtuple :=
  fun h => match h !! this with Some n => Ok n | None => Wild end.

Definition store (this : loc) (n : dbtuple) : M unit :=
  fun h => Ok (tt, <[this := n]> h).

Definition modify (this : loc) (f : dbtuple -> dbtuple) : M unit :=
  n <- read (deref this) ;; store this (f n).

Definition set_hdr (v : Z) (n : dbtuple) : dbtuple :=
  mk_dbtuple v (version n) (size n) (alloc_size n) (next n) (value_start n).
Definition set_version (t : Z) (n : dbtuple) : dbtuple :=
  mk_dbtuple (hdr n) t (size n) (alloc_size n) (next n) (value_start n).
Definition set_size (s : Z) (n : dbtuple) : dbtuple :=
  mk_dbtuple (hdr n) (version n) s (alloc_size n) (next n) (value_start n).
Definition set_big_next (p : option loc) (n : dbtuple) : dbtuple :=
  mk_dbtuple (hdr n) (version n) (size n) (alloc_size n) p (value_start n).
Definition set_value (bs : list byte) (n : dbtuple) : dbtuple :=
  mk_dbtuple (hdr n) (version n) (size n) (alloc_size n) (next n) bs.

(** [NDB_MEMCPY(dst, src, n)]: the first [n] bytes at [dst] become the
    first [n] bytes at [src]. *)
Definition NDB_MEMCPY (dst src : list byte) (n : Z) : list byte :=
  take (Z.to_nat n) src ++ drop (Z.to_nat n) dst.

(** The payload bytes of a block fresh from [malloc].  Their contents are
    unspecified; the model fixes them to zero. *)
Definition raw_bytes (n : Z) : list byte := repeat x00 (Z.to_nat n).

(** ** Header accessors *)

Definition is_locked (this : loc) : R bool :=
  n <~ deref this ;; rret (IsLocked (hdr n)).
Definition is_big_type (this : loc) : R bool :=
  n <~ deref this ;; rret (IsBigType (hdr n)).
Definition is_small_type (this : loc) : R bool :=
  b <~ is_big_type this ;; rret (negb b).
Definition is_deleting (this : loc) : R bool :=
  n <~ deref this ;; rret (IsDeleting (hdr n)).
Definition is_enqueued (this : loc) : R bool :=
  n <~ deref this ;; rret (IsEnqueued (hdr n)).
Definition is_latest (this : loc) : R bool :=
  n <~ deref this ;; rret (IsLatest (hdr n)).
Definition unstable_version (this : loc) : R Z :=
  n <~ deref this ;; rret (hdr n).

(** [lock]: with no other thread to clear the lock bit the loop either
    exits on its first test (the CAS of an unchanged word succeeds) or
    never. *)
Definition lock (this : loc) : M Z :=
  v <- read (unstable_version this) ;;
  if IsLocked v then (fun _ => Spins)
  else
    modify this (set_hdr (lock_word v)) ;;;
    b <- read (is_locked this) ;;
    INVARIANT b ;;;
    read (unstable_version this).

Definition unlock (this : loc) : M unit :=
  v <- read (unstable_version this) ;;
  INVARIANT (IsLocked v) ;;;
  let v' := unlock_word v in
  INVARIANT (negb (IsLocked v')) ;;;
  modify this (set_hdr v').

Definition set_latest (this : loc) (latest : bool) : M unit :=
  b <- read (is_locked this) ;;
  INVARIANT b ;;;
  modify this (fun n => set_hdr (set_latest_word latest (hdr n)) n).

(** [stable_version]: spins while the header is locked. *)
Definition stable_version (this : loc) : R Z :=
  v <~ unstable_version this ;;
  if IsLocked v then (fun _ => Spins) else rret v.

Definition check_version (this : loc) (v : Z) : R bool :=
  h <~ unstable_version this ;; rret (h =? v).

(** [get_next(version_t v)]. *)
Definition get_next (this : loc) (v : Z) : R (option loc) :=
  n <~ deref this ;;
  _ <~ RINVARIANT (Bool.eqb (IsBigType v) (IsBigType (hdr n))) ;;
  if IsBigType v then rret (next n) else rret None.

(** [set_next]: only big nodes have the slot. *)
Definition set_next (this : loc) (p : option loc) : M unit :=
  b <- read (is_big_type this) ;;
  INVARIANT b ;;;
  modify this (set_big_next p).

(** [get_value_start(version_t v)]: the payload buffer of the node. *)
Definition get_value_start (this : loc) (v : Z) : R (list byte) :=
  n <~ deref this ;;
  _ <~ RINVARIANT (Bool.eqb (IsBigType v) (IsBigType (hdr n))) ;;
  rret (value_start n).

Definition is_not_behind (this : loc) (t : Z) : R bool :=
  n <~ deref this ;; rret (version n <=? t).

(** ** The optimistic reader *)

(** [r.assign(p, n)]: the string becomes the [n] bytes at [p]. *)
Definition assign (p : list byte) (n : Z) : list byte := take (Z.to_nat n) p.

(** [record_at]: the out-parameters [start_t] and [r] come in with their
    current contents and leave with the contents the call gives them.
    Every pass of the [retry] loop and every hop along the chain takes one
    unit of fuel. *)
Fixpoint record_at (fuel : nat) (this : loc) (t : Z) (start_t : Z)
    (r : list byte) (max_len : Z) (require_latest : bool)
  : R (bool * Z * list byte) :=
  match fuel with
  | O => fun _ => OutOfFuel
  | S fuel =>
    (* retry: *)
    v <~ stable_version this ;;
    p <~ get_next this v ;;
    found <~ is_not_behind this t ;;
    body <~ (if found then
               if require_latest && negb (IsLatest v) then rret None
               else
                 n <~ deref this ;;
                 let start_t := version n in
                 let read_sz := Z.min (size n) max_len in
                 vs <~ get_value_start this v ;;
                 rret (Some (start_t, assign vs read_sz))
             else rret (Some (start_t, r))) ;;
    match body with
    | None => rret (false, start_t, r)
    | Some (start_t, r) =>
      same <~ check_version this v ;;
      if negb same then
        record_at fuel this t start_t r max_len require_latest
      else if found then rret (true, start_t, r)
      else
        match p with
        | Some p => record_at fuel p t start_t r max_len false
        | None => rret (true, MIN_TID, [])
        end
    end
  end.

Definition stable_read (fuel : nat) (this : loc) (t : Z) (start_t : Z)
    (r : list byte) (max_len : Z) : R (bool * Z * list byte) :=
  _ <~ RINVARIANT (0 <? max_len) ;;
  record_at fuel this t start_t r max_len true.

Definition is_latest_version (this : loc) (t : Z) : R bool :=
  l <~ is_latest this ;;
  if l then is_not_behind this t else rret false.

Definition latest_value_is_nil (this : loc) : R bool :=
  l <~ is_latest this ;;
  n <~ deref this ;;
  rret (l && (size n =? 0)).

(** ** Allocation *)

(** Modelled from the spec: [util::round_up<size_t, lgbase>] of util.h,
    which is not part of the sources at hand.  Sizes are rounded up to a
    multiple of [2 ^ lgbase] bytes. *)
Definition round_up (lgbase : Z) (t : Z) : Z :=
  (t + (2 ^ lgbase - 1)) / 2 ^ lgbase * 2 ^ lgbase.

Definition CheckBounds (s : Z) : M Z :=
  INVARIANT (s <=? max_node_size) ;;;
  ret (to_u16 s).

(** [malloc]: a block at an address that holds no node yet; the size only
    decides how many payload bytes the constructors may use.  The model
    never runs out of memory. *)
Definition malloc (n : Z) : M loc :=
  fun h => Ok (fresh (dom h), h).

(** [new (p) dbtuple(do_big_type, alloc_size)].  The constructor's
    INVARIANT on the address of [d[0]] is a fact of the packed layout. *)
Definition construct_first (p : loc) (do_big_type : bool) (alloc_size : Z)
  : M unit :=
  let hdr := Z.lor (if do_big_type then HDR_TYPE_MASK else 0) HDR_LATEST_MASK in
  a <- CheckBounds alloc_size ;;
  store p (mk_dbtuple hdr MIN_TID 0 a None (raw_bytes alloc_size)).

(** [new (p) dbtuple(version, r, size, alloc_size, next, set_latest)]. *)
Definition construct_big (p : loc) (version : Z) (r : list byte) (size : Z)
    (alloc_size : Z) (next : option loc) (set_latest : bool) : M unit :=
  let hdr := Z.lor HDR_TYPE_MASK (if set_latest then HDR_LATEST_MASK else 0) in
  s <- CheckBounds size ;;
  a <- CheckBounds alloc_size ;;
  INVARIANT (size <=? alloc_size) ;;;
  store p (mk_dbtuple hdr version s a next
             (NDB_MEMCPY (raw_bytes alloc_size) r size)).

Definition alloc_first (do_big_type : bool) (alloc_sz : Z) : M loc :=
  INVARIANT (alloc_sz <=? max_node_size) ;;;
  let big_type_contrib_sz := if do_big_type then sizeof_ptr else 0 in
  let max_actual_alloc_sz :=
    max_node_size + sizeof_dbtuple + big_type_contrib_sz in
  let actual_alloc_sz :=
    Z.min (round_up 4 (sizeof_dbtuple + big_type_contrib_sz + alloc_sz))
          max_actual_alloc_sz in
  p <- malloc actual_alloc_sz ;;
  INVARIANT (alloc_sz <=? actual_alloc_sz - sizeof_dbtuple - big_type_contrib_sz) ;;;
  construct_first p do_big_type
    (actual_alloc_sz - sizeof_dbtuple - big_type_contrib_sz) ;;;
  ret p.

Definition alloc (version : Z) (value : list byte) (sz : Z)
    (next : option loc) (set_latest : bool) : M loc :=
  INVARIANT (sz <=? max_node_size) ;;;
  let max_alloc_sz := max_node_size + sizeof_dbtuple + sizeof_ptr in
  let alloc_sz :=
    Z.min (round_up 4 (sizeof_dbtuple + sizeof_ptr + sz)) max_alloc_sz in
  p <- malloc alloc_sz ;;
  construct_big p version value sz
    (alloc_sz - sizeof_dbtuple - sizeof_ptr) next set_latest ;;;
  ret p.

(** ** The writer *)

(** [write_record_at]: [can_overwrite_record_tid] is the transaction's
    overwrite policy, [r] the bytes at the caller's pointer. *)
Definition write_record_at (can_overwrite_record_tid : Z -> Z -> bool)
    (this : loc) (t : Z) (r : list byte) (sz : Z) : M (bool * option loc) :=
  b <- read (is_locked this) ;;
  INVARIANT b ;;;
  b <- read (is_latest this) ;;
  INVARIANT b ;;;
  v <- read (unstable_version this) ;;
  n <- read (deref this) ;;
  (* try to overwrite this record *)
  if can_overwrite_record_tid (version n) t then
    (* see if we have enough space *)
    if sz <=? alloc_size n then
      (* directly update in place *)
      modify this (set_version t) ;;;
      modify this (set_size (to_u16 sz)) ;;;
      vstart <- read (get_value_start this v) ;;
      modify this (set_value (NDB_MEMCPY vstart r sz)) ;;;
      ret (false, None)
    else
      rep <- alloc t r sz (Some this) true ;;
      b <- read (is_latest rep) ;;
      INVARIANT b ;;;
      set_latest this false ;;;
      ret (false, Some rep)
  else
    (* need to spill *)
    vstart <- read (get_value_start this v) ;;
    if IsBigType v && (sz <=? alloc_size n) then
      spill <- alloc (version n) vstart (size n) (next n) false ;;
      b <- read (is_latest spill) ;;
      INVARIANT (negb b) ;;;
      set_next this (Some spill) ;;;
      modify this (set_version t) ;;;
      modify this (set_size (to_u16 sz)) ;;;
      modify this (set_value (NDB_MEMCPY vstart r sz)) ;;;
      ret (true, None)
    else
      rep <- alloc t r sz (Some this) true ;;
      b <- read (is_latest rep) ;;
      INVARIANT b ;;;
      set_latest this false ;;;
      ret (true, Some rep).

(** ** Well-formed nodes, chains and walks

    The predicates the statements below are phrased with. *)

Definition in_range (lo x hi : Z) : bool := (lo <=? x) && (x <? hi).

(** Every field holds a value of its C type, the block has [alloc_size]
    payload bytes, and the live payload fits ([size <= alloc_size]). *)
Definition node_wf (n : dbtuple) : bool :=
  in_range 0 (hdr n) (2 ^ 32)
  && in_range 0 (version n) (2 ^ 64)
  && in_range 0 (size n) (2 ^ 16)
  && in_range 0 (alloc_size n) (2 ^ 16)
  && (Z.of_nat (length (value_start n)) =? alloc_size n)
  && (size n <=? alloc_size n).

(** The pointer [get_next] yields on a node. *)
Definition next_of (n : dbtuple) : option loc :=
  if IsBigType (hdr n) then next n else None.

(** [chain h p ns]: following [next] from [p] visits exactly the nodes
    [ns], none of them locked, and then reaches the null pointer. *)
Inductive chain (h : heap) : option loc -> list dbtuple -> Prop :=
| chain_null : chain h None []
| chain_node p n ns :
    h !! p = Some n ->
    IsLocked (hdr n) = false ->
    chain h (next_of n) ns ->
    chain h (Some p) (n :: ns).

(** [walk h t p skipped m]: a reader with TID [t] that starts at [p] passes
    the nodes [skipped], all newer than [t], and stops at [m], the first
    node with [version <= t]. *)
Inductive walk (h : heap) (t : Z) : loc -> list dbtuple -> dbtuple -> Prop :=
| walk_here p m :
    h !! p = Some m ->
    IsLocked (hdr m) = false ->
    version m <= t ->
    walk h t p [] m
| walk_step p n q skipped m :
    h !! p = Some n ->
    IsLocked (hdr n) = false ->
    t < version n ->
    next_of n = Some q ->
    walk h t q skipped m ->
    walk h t p (n :: skipped) m.

(** The payload capacity [alloc] gives a node for [sz] payload bytes. *)
Definition big_capacity (sz : Z) : Z :=
  Z.min (round_up 4 (sizeof_dbtuple + sizeof_ptr + sz))
        (max_node_size + sizeof_dbtuple + sizeof_ptr)
  - sizeof_dbtuple - sizeof_ptr.

(** The node [alloc(version, value, sz, next, set_latest)] constructs. *)
Definition big_node (version : Z) (value : list byte) (sz : Z)
    (next : option loc) (set_latest : bool) : dbtuple :=
  mk_dbtuple (Z.lor HDR_TYPE_MASK (if set_latest then HDR_LATEST_MASK else 0))
             version sz (big_capacity sz) next
             (NDB_MEMCPY (raw_bytes (big_capacity sz)) value sz).

(** The payload capacity [alloc_first] gives a node asked to hold
    [alloc_sz] bytes. *)
Definition first_capacity (do_big_type : bool) (alloc_sz : Z) : Z :=
  let contrib := if do_big_type then sizeof_ptr else 0 in
  Z.min (round_up 4 (sizeof_dbtuple + contrib + alloc_sz))
        (max_node_size + sizeof_dbtuple + contrib)
  - sizeof_dbtuple - contrib.

(** The node [alloc_first(do_big_type, alloc_sz)] constructs. *)
Definition first_node (do_big_type : bool) (alloc_sz : Z) : dbtuple :=
  mk_dbtuple (Z.lor (if do_big_type then HDR_TYPE_MASK else 0) HDR_LATEST_MASK)
             MIN_TID 0 (first_capacity do_big_type alloc_sz) None
             (raw_bytes (first_capacity do_big_type alloc_sz)).

(** The node an in-place write of [sz] bytes of [r] at TID [t] leaves. *)
Definition overwritten (n : dbtuple) (t : Z) (r : list byte) (sz : Z) : dbtuple :=
  mk_dbtuple (hdr n) t sz (alloc_size n) (next n)
             (NDB_MEMCPY (value_start n) r sz).

(** [k] rounds of [lock(); unlock();] on one node. *)
Fixpoint lock_unlock (k : nat) (this : loc) : M unit :=
  match k with
  | O => ret tt
  | S k => _ <- lock this ;; unlock this ;;; lock_unlock k this
  end.

(** ** Scenario S3: a big node of capacity 4 that holds "aa" at TID 10 *)

Module S3.

Definition bytes (s : string) : list byte := list_byte_of_string s.

Definition this : loc := 1%positive.

Definition node : dbtuple :=
  mk_dbtuple (Z.lor HDR_TYPE_MASK HDR_LATEST_MASK) 10 2 4 None
             (bytes "aa" ++ raw_bytes 2).

Definition before : heap := <[this := node]> ∅.

(** The node and the heap once the writer holds the lock. *)
Definition locked_node : dbtuple := set_hdr (lock_word (hdr node)) node.
Definition locked : heap := <[this := locked_node]> ∅.

Definition never_overwrite (old_tid new_tid : Z) : bool := false.
Definition always_overwrite (old_tid new_tid : Z) : bool := true.

(** [string_type::npos], the default [max_len] of [stable_read]. *)
Definition npos : Z := to_u64 (-1).

(** lock; write_record_at(txn, 20, "bb", 2); unlock. *)
Definition script : M (bool * option loc) :=
  _ <- lock this ;;
  res <- write_record_at never_overwrite this 20 (bytes "bb") 2 ;;
  unlock this ;;;
  ret res.

End S3.

(** ** Bounded readers, link updates and the deleting mark *)

(** The loop of [try_stable_version]: re-read the header while it is
    locked and spins are left. *)
Fixpoint try_stable_spin (spins : nat) (this : loc) (v : Z) : R Z :=
  match spins with
  | O => rret v
  | S spins =>
    if IsLocked v then
      v <~ unstable_version this ;;
      try_stable_spin spins this v
    else rret v
  end.

(** [try_stable_version(v, spins)]: the result and the out-parameter [v]. *)
Definition try_stable_version (this : loc) (spins : nat) : R (bool * Z) :=
  v <~ unstable_version this ;;
  v <~ try_stable_spin spins this v ;;
  rret (negb (IsLocked v), v).

Definition stable_is_latest_version (this : loc) (t : Z) : R bool :=
  ov <~ try_stable_version this 16 ;;
  if negb (fst ov) then rret false
  else
    (* now v is a stable version *)
    ret <~ (if IsLatest (snd ov) then is_not_behind this t else rret false) ;;
    if ret then check_version this (snd ov) else rret false.

Definition stable_latest_value_is_nil (this : loc) : R bool :=
  ov <~ try_stable_version this 16 ;;
  if negb (fst ov) then rret false
  else
    ret <~ (if IsLatest (snd ov) then
              n <~ deref this ;; rret (size n =? 0)
            else rret false) ;;
    if ret then check_version this (snd ov) else rret false.

(** [get_next()], without a header argument. *)
Definition get_next_now (this : loc) : R (option loc) :=
  b <~ is_big_type this ;;
  if b then n <~ deref this ;; rret (next n) else rret None.

Definition clear_next (this : loc) : M unit :=
  b <- read (is_big_type this) ;;
  if b then modify this (set_big_next None) else ret tt.

Definition mark_deleting (this : loc) : M unit :=
  (* the lock on the latest version guards non-latest versions *)
  l <- read (is_latest this) ;;
  k <- read (is_locked this) ;;
  INVARIANT (negb l || k) ;;;
  e <- read (is_enqueued this) ;;
  INVARIANT (negb e) ;;;
  d <- read (is_deleting this) ;;
  INVARIANT (negb d) ;;;
  modify this (fun n => set_hdr (deleting_word (hdr n)) n).

(** ** A write as its caller runs it *)

(** [write_record_at] followed by [unlock], by the thread that holds the
    lock. *)
Definition write_then_unlock (can_overwrite_record_tid : Z -> Z -> bool)
    (this : loc) (t : Z) (r : list byte) (sz : Z) : M (bool * option loc) :=
  res <- write_record_at can_overwrite_record_tid this t r sz ;;
  unlock this ;;;
  ret res.

(** The node the index points at once the caller has acted on the result
    of a write: the replacement if there is one, else the node written. *)
Definition index_head (this : loc) (res : bool * option loc) : loc :=
  match snd res with
  | Some rep => rep
  | None => this
  end.

(** Every node of the heap is well formed. *)
Definition heap_wf (h : heap) : Prop :=
  forall p n, h !! p = Some n -> node_wf n = true.

(** [linked h p l]: following [next] from [p] visits the nodes [l], each
    with its address, and then reaches the null pointer. *)
Inductive linked (h : heap) : option loc -> list (loc * dbtuple) -> Prop :=
| linked_null : linked h None []
| linked_node p n l :
    h !! p = Some n ->
    linked h (next_of n) l ->
    linked h (Some p) ((p, n) :: l).

(** The versions along a chain, head first. *)
Definition versions (l : list (loc * dbtuple)) : list Z :=
  map (fun pn => version (snd pn)) l.

(** The first node of a chain that a reader with TID [t] may see. *)
Definition first_visible (t : Z) (l : list (loc * dbtuple)) : option dbtuple :=
  snd <$> List.find (fun pn => version (snd pn) <=? t) l.

(** What [stable_read] hands back for a visible node [m], or for none. *)
Definition read_result (m : option dbtuple) (max_len : Z) : bool * Z * list byte :=
  match m with
  | Some m => (true, version m, assign (value_start m) (Z.min (size m) max_len))
  | None => (true, MIN_TID, [])
  end.

(** * Properties *)

(** ** Bit masks as arithmetic *)

(** Linear arithmetic with division and remainder by literals. *)
Ltac pow2_literals :=
  change (2 ^ 0) with 1 in *; change (2 ^ 1) with 2 in *;
  change (2 ^ 4) with 16 in *; change (2 ^ 5) with 32 in *;
  change (2 ^ 16) with 65536 in *; change (2 ^ 27) with 134217728 in *;
  change (2 ^ 31) with 2147483648 in *; change (2 ^ 32) with 4294967296 in *;
  change (2 ^ 64) with 18446744073709551616 in *.
Ltac divmod_lia := pow2_literals; Z.div_mod_to_equations; lia.

Lemma land_shifted_ones (v k m : Z) :
  0 <= k -> 0 <= m ->
  Z.land v (Z.shiftl (Z.ones m) k) = Z.shiftr v k mod 2 ^ m * 2 ^ k.
Proof.
  intros Hk Hm. rewrite <- Z.shiftl_mul_pow2 by exact Hk.
  apply Z.bits_inj'. intros i Hi.
  rewrite Z.land_spec.
  destruct (Z.lt_ge_cases i k) as [Hlt|Hge].
  - rewrite !Z.shiftl_spec_low by exact Hlt. apply andb_false_r.
  - rewrite !Z.shiftl_spec by exact Hi.
    rewrite Z.testbit_ones_nonneg by lia.
    destruct (Z.ltb_spec (i - k) m) as [Hin|Hout].
    + rewrite Z.mod_pow2_bits_low by exact Hin.
      rewrite Z.shiftr_spec by lia.
      replace (i - k + k) with i by lia. apply andb_true_r.
    + rewrite Z.mod_pow2_bits_high by lia. apply andb_false_r.
Qed.

Lemma lor_above (a c k : Z) :
  0 <= k -> 0 <= a < 2 ^ k -> Z.lor a (c * 2 ^ k) = a + c * 2 ^ k.
Proof.
  intros Hk Ha.
  assert (Hdisj : Z.land a (c * 2 ^ k) = 0).
  { rewrite <- Z.shiftl_mul_pow2 by exact Hk.
    apply Z.bits_inj'. intros i Hi.
    rewrite Z.land_spec, Z.bits_0.
    destruct (Z.lt_ge_cases i k) as [Hlt|Hge].
    - rewrite Z.shiftl_spec_low by exact Hlt. apply andb_false_r.
    - rewrite <- (Z.mod_small a (2 ^ k)) by exact Ha.
      rewrite Z.mod_pow2_bits_high by lia. reflexivity. }
  rewrite <- Z.lxor_lor by exact Hdisj.
  symmetry. now apply Z.add_nocarry_lxor.
Qed.

(** One flag bit, the one at position [k]. *)
Lemma flag_bit (v k : Z) :
  0 <= k -> nonzero (Z.land v (Z.shiftl 1 k)) = negb (v / 2 ^ k mod 2 =? 0).
Proof.
  intros Hk. unfold nonzero.
  change 1 with (Z.ones 1) at 1.
  rewrite land_shifted_ones by lia.
  rewrite Z.shiftr_div_pow2 by exact Hk.
  change (2 ^ 1) with 2.
  assert (0 < 2 ^ k) by (apply Z.pow_pos_nonneg; lia).
  destruct (Z.eqb_spec (v / 2 ^ k mod 2) 0) as [E|E].
  - rewrite E. reflexivity.
  - destruct (Z.eqb_spec (v / 2 ^ k mod 2 * 2 ^ k) 0) as [E'|E']; [|reflexivity].
    apply Z.mul_eq_0 in E'. lia.
Qed.

Lemma IsLocked_arith v : IsLocked v = negb (v mod 2 =? 0).
Proof.
  unfold IsLocked. change HDR_LOCKED_MASK with (Z.shiftl 1 0).
  rewrite flag_bit by lia. change (2 ^ 0) with 1. now rewrite Z.div_1_r.
Qed.

Lemma IsBigType_arith v : IsBigType v = negb (v / 2 mod 2 =? 0).
Proof. unfold IsBigType, HDR_TYPE_MASK. now rewrite flag_bit. Qed.

Lemma IsDeleting_arith v : IsDeleting v = negb (v / 4 mod 2 =? 0).
Proof. unfold IsDeleting, HDR_DELETING_MASK. now rewrite flag_bit. Qed.

Lemma IsEnqueued_arith v : IsEnqueued v = negb (v / 8 mod 2 =? 0).
Proof. unfold IsEnqueued, HDR_ENQUEUED_MASK. now rewrite flag_bit. Qed.

Lemma IsLatest_arith v : IsLatest v = negb (v / 16 mod 2 =? 0).
Proof. unfold IsLatest, HDR_LATEST_MASK. now rewrite flag_bit. Qed.

Lemma Version_arith v : Version v = v / 32 mod 2 ^ 27.
Proof.
  unfold Version.
  change HDR_VERSION_MASK with (Z.shiftl (Z.ones 27) 5).
  change HDR_VERSION_SHIFT with 5.
  rewrite land_shifted_ones by lia.
  rewrite !Z.shiftr_div_pow2 by lia.
  change (2 ^ 5) with 32. rewrite Z.div_mul by lia. reflexivity.
Qed.

(** The word [unlock] stores, in closed form: the counter one up modulo
    [2 ^ 27], the four flags above the lock bit as they were, the lock bit
    clear. *)
Lemma unlock_word_arith v :
  is_u32 v ->
  unlock_word v = (v / 32 + 1) mod 2 ^ 27 * 32 + (v mod 32 - v mod 2).
Proof.
  unfold is_u32. intros Hv. unfold unlock_word.
  rewrite Version_arith.
  change (not32 HDR_VERSION_MASK) with (Z.ones 5).
  change (not32 HDR_LOCKED_MASK) with (Z.shiftl (Z.ones 31) 1).
  change HDR_VERSION_MASK with (Z.shiftl (Z.ones 27) 5).
  change HDR_VERSION_SHIFT with 5.
  rewrite Z.land_ones by lia.
  rewrite !land_shifted_ones by lia.
  rewrite !Z.shiftr_div_pow2, Z.shiftl_mul_pow2 by lia.
  unfold to_u32.
  rewrite (Z.mod_small (v / 32)) by divmod_lia.
  rewrite (Z.mod_small (v / 2 ^ 5 + 1)) by divmod_lia.
  rewrite lor_above by divmod_lia.
  divmod_lia.
Qed.

Lemma lock_word_arith v : IsLocked v = false -> lock_word v = v + 1.
Proof.
  rewrite IsLocked_arith. intros Hv. apply negb_false_iff, Z.eqb_eq in Hv.
  unfold lock_word. change HDR_LOCKED_MASK with 1.
  rewrite Z.lor_comm.
  replace v with (v / 2 * 2 ^ 1) at 1 by divmod_lia.
  rewrite lor_above by lia. divmod_lia.
Qed.

(** ** Running the monads *)

Lemma bind_run {A B : Type} (m : M A) (k : A -> M B) h a h' :
  m h = Ok (a, h') -> bind m k h = k a h'.
Proof. intros E. unfold bind. now rewrite E. Qed.

Lemma rbind_run {A B : Type} (m : R A) (k : A -> R B) h a :
  m h = Ok a -> rbind m k h = k a h.
Proof. intros E. unfold rbind. now rewrite E. Qed.

Lemma read_run {A : Type} (m : R A) h a : m h = Ok a -> read m h = Ok (a, h).
Proof. intros E. unfold read. now rewrite E. Qed.

Lemma deref_run (h : heap) this n : h !! this = Some n -> deref this h = Ok n.
Proof. intros E. unfold deref. now rewrite E. Qed.

Lemma modify_run (h : heap) this n f :
  h !! this = Some n -> modify this f h = Ok (tt, <[this := f n]> h).
Proof.
  intros E. unfold modify.
  now rewrite (bind_run _ _ h n h) by (apply read_run, deref_run, E).
Qed.

Lemma INVARIANT_run (h : heap) : INVARIANT true h = Ok (tt, h).
Proof. reflexivity. Qed.

Section Accessors.
Context (h : heap) (this : loc) (n : dbtuple).
Hypothesis Hn : h !! this = Some n.

Lemma unstable_version_run : unstable_version this h = Ok (hdr n).
Proof. unfold unstable_version. now rewrite (rbind_run _ _ h n) by now apply deref_run. Qed.

Lemma is_locked_run : is_locked this h = Ok (IsLocked (hdr n)).
Proof. unfold is_locked. now rewrite (rbind_run _ _ h n) by now apply deref_run. Qed.

Lemma is_latest_run : is_latest this h = Ok (IsLatest (hdr n)).
Proof. unfold is_latest. now rewrite (rbind_run _ _ h n) by now apply deref_run. Qed.

Lemma is_big_type_run : is_big_type this h = Ok (IsBigType (hdr n)).
Proof. unfold is_big_type. now rewrite (rbind_run _ _ h n) by now apply deref_run. Qed.

Lemma is_not_behind_run t : is_not_behind this t h = Ok (version n <=? t).
Proof. unfold is_not_behind. now rewrite (rbind_run _ _ h n) by now apply deref_run. Qed.

Lemma stable_version_run :
  IsLocked (hdr n) = false -> stable_version this h = Ok (hdr n).
Proof.
  intros Hl. unfold stable_version.
  rewrite (rbind_run _ _ h (hdr n)) by apply unstable_version_run.
  now rewrite Hl.
Qed.

Lemma check_version_run : check_version this (hdr n) h = Ok true.
Proof.
  unfold check_version.
  rewrite (rbind_run _ _ h (hdr n)) by apply unstable_version_run.
  unfold rret. now rewrite Z.eqb_refl.
Qed.

Lemma get_next_run : get_next this (hdr n) h = Ok (next_of n).
Proof.
  unfold get_next.
  rewrite (rbind_run _ _ h n) by now apply deref_run.
  rewrite eqb_reflx. unfold rbind, RINVARIANT, obind, next_of.
  now destruct (IsBigType (hdr n)).
Qed.

Lemma get_value_start_run : get_value_start this (hdr n) h = Ok (value_start n).
Proof.
  unfold get_value_start.
  rewrite (rbind_run _ _ h n) by now apply deref_run.
  now rewrite eqb_reflx.
Qed.

Lemma unlock_run :
  IsLocked (hdr n) = true -> is_u32 (hdr n) ->
  unlock this h = Ok (tt, <[this := set_hdr (unlock_word (hdr n)) n]> h).
Proof.
  intros Hl Hr. unfold unlock.
  rewrite (bind_run _ _ h (hdr n) h) by apply read_run, unstable_version_run.
  rewrite Hl, (bind_run _ _ h tt h) by reflexivity.
  assert (Hu : IsLocked (unlock_word (hdr n)) = false).
  { rewrite IsLocked_arith, unlock_word_arith by exact Hr.
    apply negb_false_iff, Z.eqb_eq.
    rewrite IsLocked_arith in Hl. apply negb_true_iff, Z.eqb_neq in Hl.
    divmod_lia. }
  rewrite Hu. simpl negb.
  rewrite (bind_run _ _ h tt h) by reflexivity.
  now apply modify_run.
Qed.

Lemma lock_run :
  IsLocked (hdr n) = false ->
  lock this h = Ok (hdr n + 1, <[this := set_hdr (hdr n + 1) n]> h).
Proof.
  intros Hl. unfold lock.
  rewrite (bind_run _ _ h (hdr n) h) by apply read_run, unstable_version_run.
  rewrite Hl, lock_word_arith by exact Hl.
  set (n1 := set_hdr (hdr n + 1) n). set (h1 := <[this := n1]> h).
  assert (H1 : h1 !! this = Some n1) by apply lookup_insert_eq.
  rewrite (bind_run _ _ h tt h1) by now apply modify_run.
  assert (Hl1 : IsLocked (hdr n1) = true).
  { simpl. rewrite IsLocked_arith in *.
    apply negb_false_iff, Z.eqb_eq in Hl. apply negb_true_iff, Z.eqb_neq.
    divmod_lia. }
  rewrite (bind_run _ _ h1 true h1)
    by (apply read_run; unfold is_locked;
        rewrite (rbind_run _ _ h1 n1) by (now apply deref_run);
        unfold rret; now rewrite Hl1).
  rewrite (bind_run _ _ h1 tt h1) by reflexivity.
  apply read_run. unfold unstable_version.
  now rewrite (rbind_run _ _ h1 n1) by now apply deref_run.
Qed.

End Accessors.

(** ** The header counter across unlocks *)

Lemma set_hdr_set_hdr v w n : set_hdr v (set_hdr w n) = set_hdr v n.
Proof. reflexivity. Qed.

Lemma set_hdr_same n : set_hdr (hdr n) n = n.
Proof. now destruct n. Qed.

(** [k] rounds of lock and unlock on an unlocked node move the counter up
    by [k] modulo [2 ^ 27] and leave every other bit and field alone. *)
Lemma lock_unlock_run (k : nat) (h : heap) (this : loc) (n : dbtuple) :
  h !! this = Some n -> is_u32 (hdr n) -> IsLocked (hdr n) = false ->
  exists w,
    lock_unlock k this h = Ok (tt, <[this := set_hdr w n]> h)
    /\ is_u32 w
    /\ Version w = (Version (hdr n) + Z.of_nat k) mod 2 ^ 27
    /\ w mod 32 = hdr n mod 32.
Proof.
  revert h n. induction k as [|k IH]; intros h n Hn Hr Hl.
  - exists (hdr n). rewrite set_hdr_same, insert_id by exact Hn.
    repeat split; try apply Hr.
    rewrite Z.add_0_r, Version_arith. now rewrite Z.mod_mod by lia.
  - pose proof Hl as Hl0. rewrite IsLocked_arith in Hl0.
    apply negb_false_iff, Z.eqb_eq in Hl0. unfold is_u32 in Hr.
    set (n1 := set_hdr (hdr n + 1) n). set (h1 := <[this := n1]> h).
    assert (H1 : h1 !! this = Some n1) by apply lookup_insert_eq.
    assert (Hr1 : is_u32 (hdr n1)) by (unfold is_u32; simpl; divmod_lia).
    assert (Hl1 : IsLocked (hdr n1) = true).
    { simpl. rewrite IsLocked_arith. apply negb_true_iff, Z.eqb_neq. divmod_lia. }
    set (w2 := unlock_word (hdr n1)).
    set (n2 := set_hdr w2 n). set (h2 := <[this := n2]> h).
    assert (Hw2 : w2 = (hdr n / 32 + 1) mod 2 ^ 27 * 32 + hdr n mod 32).
    { unfold w2. rewrite unlock_word_arith by exact Hr1. simpl. divmod_lia. }
    assert (H2 : h2 !! this = Some n2) by apply lookup_insert_eq.
    assert (Hr2 : is_u32 (hdr n2)) by (unfold is_u32; simpl; rewrite Hw2; divmod_lia).
    assert (Hl2 : IsLocked (hdr n2) = false).
    { simpl. rewrite IsLocked_arith, Hw2. apply negb_false_iff, Z.eqb_eq. divmod_lia. }
    destruct (IH h2 n2 H2 Hr2 Hl2) as (w & Hrun & Hrw & Hver & Hlow).
    exists w. simpl lock_unlock.
    rewrite (bind_run _ _ h (hdr n + 1) h1) by now apply lock_run.
    rewrite (bind_run _ _ h1 tt h2).
    2:{ rewrite (unlock_run h1 this n1 H1 Hl1 Hr1).
        unfold h1, h2, n1, n2, w2. now rewrite insert_insert_eq. }
    rewrite Hrun. unfold h2, n2. rewrite insert_insert_eq, set_hdr_set_hdr.
    repeat split; try apply Hrw.
    + rewrite Hver. simpl hdr. rewrite !Version_arith, Hw2.
      rewrite Nat2Z.inj_succ.
      replace (((hdr n / 32 + 1) mod 2 ^ 27 * 32 + hdr n mod 32) / 32 mod 2 ^ 27)
        with ((hdr n / 32 + 1) mod 2 ^ 27) by divmod_lia.
      rewrite (Z.mod_small (hdr n / 32)) by divmod_lia.
      rewrite Zplus_mod_idemp_l. f_equal. lia.
    + rewrite Hlow. simpl hdr. rewrite Hw2. divmod_lia.
Qed.

(** C7: [unlock] on a locked node stores the old header with the 27-bit
    counter (bits 5..31) one up modulo 2^27, the lock bit clear and the
    type, deleted, enqueued and latest bits as they were; after that unlock
    and [k] further rounds of lock and unlock the counter has gone up by
    exactly [1 + k] modulo 2^27. *)
Theorem unlock_counter_step (h : heap) (this : loc) (n : dbtuple) :
  h !! this = Some n -> is_u32 (hdr n) -> IsLocked (hdr n) = true ->
  let v' := unlock_word (hdr n) in
  unlock this h = Ok (tt, <[this := set_hdr v' n]> h)
  /\ v' = (Version (hdr n) + 1) mod 2 ^ 27 * 32 + (hdr n mod 32 - 1)
  /\ Version v' = (Version (hdr n) + 1) mod 2 ^ 27
  /\ IsLocked v' = false
  /\ IsBigType v' = IsBigType (hdr n)
  /\ IsDeleting v' = IsDeleting (hdr n)
  /\ IsEnqueued v' = IsEnqueued (hdr n)
  /\ IsLatest v' = IsLatest (hdr n)
  /\ forall k : nat, exists w,
       (unlock this ;;; lock_unlock k this) h
         = Ok (tt, <[this := set_hdr w n]> h)
       /\ Version w = (Version (hdr n) + 1 + Z.of_nat k) mod 2 ^ 27
       /\ w mod 32 = v' mod 32.
Proof.
  intros Hn Hr Hl v'.
  pose proof (unlock_word_arith (hdr n) Hr) as Hv'. fold v' in Hv'.
  pose proof Hl as Hodd. rewrite IsLocked_arith in Hodd.
  apply negb_true_iff, Z.eqb_neq in Hodd.
  pose proof Hr as Hr'. unfold is_u32 in Hr'.
  assert (Hcnt : Version (hdr n) = hdr n / 32)
    by (rewrite Version_arith; apply Z.mod_small; divmod_lia).
  assert (Hrun : unlock this h = Ok (tt, <[this := set_hdr v' n]> h))
    by now apply unlock_run.
  assert (Hver : Version v' = (Version (hdr n) + 1) mod 2 ^ 27).
  { rewrite Hcnt, Version_arith, Hv'. divmod_lia. }
  assert (Hlk : IsLocked v' = false).
  { rewrite IsLocked_arith, Hv'. apply negb_false_iff, Z.eqb_eq. divmod_lia. }
  assert (Hr2 : is_u32 v') by (unfold is_u32; rewrite Hv'; divmod_lia).
  split; [exact Hrun|]. split; [rewrite Hcnt, Hv'; divmod_lia|].
  split; [exact Hver|]. split; [exact Hlk|].
  split; [rewrite !IsBigType_arith, Hv'; do 2 f_equal; divmod_lia|].
  split; [rewrite !IsDeleting_arith, Hv'; do 2 f_equal; divmod_lia|].
  split; [rewrite !IsEnqueued_arith, Hv'; do 2 f_equal; divmod_lia|].
  split; [rewrite !IsLatest_arith, Hv'; do 2 f_equal; divmod_lia|].
  intros k.
  set (n1 := set_hdr v' n). set (h1 := <[this := n1]> h).
  assert (H1 : h1 !! this = Some n1) by apply lookup_insert_eq.
  destruct (lock_unlock_run k h1 this n1 H1 Hr2 Hlk) as (w & Hk & _ & Hw & Hlow).
  exists w. rewrite (bind_run _ _ h tt h1) by exact Hrun.
  rewrite Hk. unfold h1, n1. rewrite insert_insert_eq, set_hdr_set_hdr.
  split; [reflexivity|]. split; [|exact Hlow].
  rewrite Hw. simpl hdr. now rewrite Hver, Zplus_mod_idemp_l.
Qed.

Lemma unlock_counter_step_witness :
  let h : heap := <[1%positive := mk_dbtuple 0x13 10 0 4 None (raw_bytes 4)]> ∅ in
  unlock 1%positive h
    = Ok (tt, <[1%positive := mk_dbtuple 0x32 10 0 4 None (raw_bytes 4)]> h)
  /\ Version 0x32 = 1.
Proof.
  intros h.
  destruct (unlock_counter_step h 1%positive
              (mk_dbtuple 0x13 10 0 4 None (raw_bytes 4)))
    as (Hrun & _ & Hver & _).
  - reflexivity.
  - unfold is_u32. simpl hdr. pow2_literals. lia.
  - reflexivity.
  - split; [exact Hrun | exact Hver].
Defined.

(** ** Allocation sizes *)

Lemma round_up_16 (x : Z) :
  x <= round_up 4 x < x + 16 /\ round_up 4 x mod 16 = 0.
Proof. unfold round_up. divmod_lia. Qed.

Lemma big_capacity_bounds (sz : Z) :
  0 <= sz <= max_node_size -> sz <= big_capacity sz <= max_node_size.
Proof.
  intros Hsz. unfold big_capacity, max_node_size, sizeof_dbtuple, sizeof_ptr in *.
  pose proof (round_up_16 (4 + 8 + 2 + 2 + 8 + sz)). lia.
Qed.

Lemma first_capacity_bounds (big : bool) (cap : Z) :
  0 <= cap <= max_node_size -> cap <= first_capacity big cap <= max_node_size.
Proof.
  intros Hc. unfold first_capacity, max_node_size, sizeof_dbtuple, sizeof_ptr in *.
  destruct big.
  - pose proof (round_up_16 (4 + 8 + 2 + 2 + 8 + cap)). lia.
  - pose proof (round_up_16 (4 + 8 + 2 + 2 + 0 + cap)). lia.
Qed.

Lemma to_u16_small (x : Z) : 0 <= x <= max_node_size -> to_u16 x = x.
Proof. unfold to_u16, max_node_size. intros Hx. apply Z.mod_small. pow2_literals. lia. Qed.

Lemma CheckBounds_run (s : Z) (h : heap) :
  0 <= s <= max_node_size -> CheckBounds s h = Ok (s, h).
Proof.
  intros Hs. unfold CheckBounds.
  replace (s <=? max_node_size) with true by (symmetry; apply Z.leb_le; lia).
  rewrite (bind_run _ _ h tt h) by reflexivity.
  unfold ret. now rewrite to_u16_small.
Qed.

Lemma fresh_unused (h : heap) : h !! fresh (dom h) = None.
Proof. apply not_elem_of_dom, is_fresh. Qed.

Lemma fresh_other (h : heap) (p : loc) (n : dbtuple) :
  h !! p = Some n -> fresh (dom h) <> p.
Proof. intros Hp E. rewrite <- E, fresh_unused in Hp. discriminate. Qed.

Lemma alloc_run version (value : list byte) sz nx latest (h : heap) :
  0 <= sz <= max_node_size ->
  alloc version value sz nx latest h
  = Ok (fresh (dom h),
        <[fresh (dom h) := big_node version value sz nx latest]> h).
Proof.
  intros Hsz. pose proof (big_capacity_bounds sz Hsz) as Hcap.
  unfold alloc.
  replace (sz <=? max_node_size) with true by (symmetry; apply Z.leb_le; lia).
  rewrite (bind_run _ _ h tt h) by reflexivity.
  rewrite (bind_run _ _ h (fresh (dom h)) h) by reflexivity.
  fold (big_capacity sz).
  rewrite (bind_run _ _ h tt (<[fresh (dom h) := big_node version value sz nx latest]> h));
    [reflexivity|].
  unfold construct_big.
  rewrite (bind_run _ _ h sz h) by (apply CheckBounds_run; lia).
  rewrite (bind_run _ _ h (big_capacity sz) h) by (apply CheckBounds_run; lia).
  replace (sz <=? big_capacity sz) with true by (symmetry; apply Z.leb_le; lia).
  now rewrite (bind_run _ _ h tt h) by reflexivity.
Qed.

Lemma alloc_first_run big cap (h : heap) :
  0 <= cap <= max_node_size ->
  alloc_first big cap h
  = Ok (fresh (dom h), <[fresh (dom h) := first_node big cap]> h).
Proof.
  intros Hc. pose proof (first_capacity_bounds big cap Hc) as Hcap.
  unfold alloc_first.
  replace (cap <=? max_node_size) with true by (symmetry; apply Z.leb_le; lia).
  rewrite (bind_run _ _ h tt h) by reflexivity.
  rewrite (bind_run _ _ h (fresh (dom h)) h) by reflexivity.
  fold (first_capacity big cap).
  replace (cap <=? first_capacity big cap) with true by (symmetry; apply Z.leb_le; lia).
  rewrite (bind_run _ _ h tt h) by reflexivity.
  rewrite (bind_run _ _ h tt (<[fresh (dom h) := first_node big cap]> h));
    [reflexivity|].
  unfold construct_first.
  now rewrite (bind_run _ _ h (first_capacity big cap) h) by (apply CheckBounds_run; lia).
Qed.

Lemma length_raw_bytes (k : Z) : 0 <= k -> Z.of_nat (length (raw_bytes k)) = k.
Proof. intros Hk. unfold raw_bytes. rewrite repeat_length. lia. Qed.

Lemma length_NDB_MEMCPY (dst src : list byte) (k : Z) :
  0 <= k <= Z.of_nat (length dst) -> k <= Z.of_nat (length src) ->
  length (NDB_MEMCPY dst src k) = length dst.
Proof.
  intros Hd Hs. unfold NDB_MEMCPY.
  rewrite length_app, length_take, length_drop. lia.
Qed.

Lemma take_NDB_MEMCPY (dst src : list byte) (k : Z) :
  k <= Z.of_nat (length src) ->
  take (Z.to_nat k) (NDB_MEMCPY dst src k) = take (Z.to_nat k) src.
Proof.
  intros Hs. unfold NDB_MEMCPY.
  rewrite take_app_le by (rewrite length_take; lia).
  apply take_idemp.
Qed.

(** C8: for a requested capacity ([alloc_first]) or payload size ([alloc])
    of at most 65535 the block is the smaller of prefix + request rounded up
    to a multiple of 16 and the ceiling 65535 + prefix, where the prefix is
    the fixed 16 bytes plus the pointer slot of a big node; [alloc_size] is
    the whole block minus the prefix, so that
    [requested <= alloc_size <= 65535] and [size <= alloc_size], also when
    the rounding is clamped at the ceiling. *)
Theorem alloc_block_size (big latest : bool) (requested version : Z)
    (value : list byte) (nx : option loc) (h : heap) :
  0 <= requested <= max_node_size ->
  let p := fresh (dom h) in
  (let prefix := sizeof_dbtuple + (if big then sizeof_ptr else 0) in
   let block := Z.min (round_up 4 (prefix + requested)) (max_node_size + prefix) in
   exists n,
     alloc_first big requested h = Ok (p, <[p := n]> h)
     /\ alloc_size n = block - prefix
     /\ Z.of_nat (length (value_start n)) = alloc_size n
     /\ requested <= alloc_size n <= max_node_size
     /\ size n <= alloc_size n)
  /\ (let prefix := sizeof_dbtuple + sizeof_ptr in
      let block := Z.min (round_up 4 (prefix + requested)) (max_node_size + prefix) in
      exists n,
        alloc version value requested nx latest h = Ok (p, <[p := n]> h)
        /\ alloc_size n = block - prefix
        /\ size n = requested
        /\ requested <= alloc_size n <= max_node_size
        /\ size n <= alloc_size n)
  /\ (forall x, x <= round_up 4 x < x + 16 /\ round_up 4 x mod 16 = 0).
Proof.
  intros Hreq p. split; [|split].
  - pose proof (first_capacity_bounds big requested Hreq) as Hcap.
    exists (first_node big requested).
    split; [now apply alloc_first_run|].
    split; [unfold first_node, first_capacity; simpl; lia|].
    split; [simpl; apply length_raw_bytes; lia|].
    split; [exact Hcap|]. simpl. lia.
  - pose proof (big_capacity_bounds requested Hreq) as Hcap.
    exists (big_node version value requested nx latest).
    split; [now apply alloc_run|].
    split; [unfold big_node, big_capacity; simpl; lia|].
    split; [reflexivity|].
    split; [exact Hcap|]. simpl. lia.
  - apply round_up_16.
Qed.

Lemma alloc_block_size_witness :
  exists n,
    alloc_first true 65535 ∅ = Ok (1%positive, <[1%positive := n]> ∅)
    /\ alloc_size n = 65535 /\ size n <= 65535.
Proof.
  destruct (alloc_block_size true true 65535 0 [] None ∅)
    as [(n & Hrun & Hsz & _ & _ & Hs) _].
  - unfold max_node_size. lia.
  - exists n. split; [exact Hrun|].
    assert (Hcap : alloc_size n = 65535) by (rewrite Hsz; reflexivity).
    split; [exact Hcap|]. rewrite <- Hcap. exact Hs.
Defined.

(** ** One pass of [record_at] over an unlocked node *)

Section RecordAtNode.
Context (h : heap) (this : loc) (n : dbtuple).
Hypothesis Hn : h !! this = Some n.
Hypothesis Hunlocked : IsLocked (hdr n) = false.

Context (fuel : nat) (t start_t : Z) (r : list byte) (max_len : Z).

Ltac enter :=
  cbn [record_at];
  rewrite (rbind_run _ _ h (hdr n)) by (now apply stable_version_run);
  rewrite (rbind_run _ _ h (next_of n)) by (now apply get_next_run);
  rewrite (rbind_run _ _ h (version n <=? t)) by (now apply is_not_behind_run).

(** The node is visible at [t] and is the head where a head is asked for. *)
Lemma record_at_found (require_latest : bool) :
  version n <= t ->
  (require_latest = true -> IsLatest (hdr n) = true) ->
  record_at (S fuel) this t start_t r max_len require_latest h
  = Ok (true, version n, assign (value_start n) (Z.min (size n) max_len)).
Proof.
  intros Hv Hl. enter.
  replace (version n <=? t) with true by (symmetry; now apply Z.leb_le).
  assert (Hgo : require_latest && negb (IsLatest (hdr n)) = false).
  { destruct require_latest; [|reflexivity]. now rewrite Hl. }
  rewrite Hgo.
  rewrite (rbind_run _ _ h
             (Some (version n, assign (value_start n) (Z.min (size n) max_len)))).
  2:{ rewrite (rbind_run _ _ h n) by now apply deref_run.
      now rewrite (rbind_run _ _ h (value_start n)) by now apply get_value_start_run. }
  now rewrite (rbind_run _ _ h true) by now apply check_version_run.
Qed.

(** The node is visible at [t] but is no longer the head. *)
Lemma record_at_stale :
  version n <= t -> IsLatest (hdr n) = false ->
  record_at (S fuel) this t start_t r max_len true h = Ok (false, start_t, r).
Proof.
  intros Hv Hl. enter.
  replace (version n <=? t) with true by (symmetry; now apply Z.leb_le).
  rewrite Hl. reflexivity.
Qed.

(** The node is newer than [t]: the reader moves on. *)
Lemma record_at_skip (require_latest : bool) :
  t < version n ->
  record_at (S fuel) this t start_t r max_len require_latest h
  = match next_of n with
    | Some q => record_at fuel q t start_t r max_len false h
    | None => Ok (true, MIN_TID, [])
    end.
Proof.
  intros Hv. enter.
  replace (version n <=? t) with false by (symmetry; apply Z.leb_gt; lia).
  rewrite (rbind_run _ _ h (Some (start_t, r))) by reflexivity.
  rewrite (rbind_run _ _ h true) by now apply check_version_run.
  cbn [negb]. now destruct (next_of n).
Qed.

End RecordAtNode.

Lemma stable_read_run fuel this t start_t r max_len (h : heap) :
  0 < max_len ->
  stable_read fuel this t start_t r max_len h
  = record_at fuel this t start_t r max_len true h.
Proof.
  intros Hm. unfold stable_read.
  replace (0 <? max_len) with true by (symmetry; now apply Z.ltb_lt).
  now rewrite (rbind_run _ _ h tt) by reflexivity.
Qed.

(** Past the head [record_at] does not ask for the latest flag and has no
    failing return. *)
Lemma record_at_no_latest_succeeds fuel : forall this t start_t r max_len (h : heap) b s r',
  record_at fuel this t start_t r max_len false h = Ok (b, s, r') -> b = true.
Proof.
  induction fuel as [|fuel IH]; intros this t start_t r max_len h b s r'; [discriminate|].
  cbn [record_at]. unfold rbind at 1.
  destruct (stable_version this h) as [v| | | |]; try discriminate. cbn [obind].
  unfold rbind at 1.
  destruct (get_next this v h) as [p| | | |]; try discriminate. cbn [obind].
  unfold rbind at 1.
  destruct (is_not_behind this t h) as [found| | | |]; try discriminate. cbn [obind].
  unfold rbind at 1. cbn [andb].
  destruct found.
  - unfold rbind at 1.
    destruct (deref this h) as [n| | | |]; try discriminate. cbn [obind].
    unfold rbind at 1.
    destruct (get_value_start this v h) as [vs| | | |]; try discriminate. cbn [obind rret].
    unfold rbind at 1.
    destruct (check_version this v h) as [same| | | |]; try discriminate. cbn [obind].
    destruct same; cbn [negb].
    + unfold rret. now intros [= <- _ _].
    + apply IH.
  - cbn [rret obind].
    unfold rbind at 1.
    destruct (check_version this v h) as [same| | | |]; try discriminate. cbn [obind].
    destruct same; cbn [negb].
    + destruct p as [q|]; [apply IH|]. unfold rret. now intros [= <- _ _].
    + apply IH.
Qed.

(** ** Reading along a chain *)

Lemma record_at_chain_too_new (h : heap) (t : Z) po ns :
  chain h po ns ->
  Forall (fun n => t < version n) ns ->
  forall p fuel start_t r max_len require_latest,
    po = Some p -> (length ns <= fuel)%nat ->
    record_at fuel p t start_t r max_len require_latest h = Ok (true, MIN_TID, []).
Proof.
  induction 1 as [|p0 n ns Hn Hl Hc IH]; intros Hall p fuel start_t r max_len rl Hp Hfuel.
  - discriminate.
  - injection Hp as ->. apply Forall_cons in Hall as [Hnew Hall].
    destruct fuel as [|fuel]; [simpl in Hfuel; lia|].
    rewrite (record_at_skip h p n Hn Hl) by exact Hnew.
    destruct (next_of n) as [q|] eqn:Hq; [|reflexivity].
    apply IH; [exact Hall | reflexivity | simpl in Hfuel; lia].
Qed.

Lemma record_at_walk (h : heap) (t : Z) p skipped m :
  walk h t p skipped m ->
  forall fuel start_t r max_len require_latest,
    (require_latest = true -> skipped = [] -> IsLatest (hdr m) = true) ->
    (length skipped < fuel)%nat ->
    record_at fuel p t start_t r max_len require_latest h
    = Ok (true, version m, assign (value_start m) (Z.min (size m) max_len)).
Proof.
  induction 1 as [p m Hm Hl Hv | p n q skipped m Hn Hl Hv Hq Hw IH];
    intros fuel start_t r max_len rl Hlatest Hfuel;
    (destruct fuel as [|fuel]; [simpl in Hfuel; lia|]).
  - apply record_at_found; auto.
  - rewrite (record_at_skip h p n Hn Hl) by exact Hv.
    rewrite Hq. apply IH; [discriminate | simpl in Hfuel; lia].
Qed.

Lemma node_wf_elim (n : dbtuple) :
  node_wf n = true ->
  is_u32 (hdr n) /\ is_u64 (version n) /\ is_u16 (size n)
  /\ is_u16 (alloc_size n)
  /\ Z.of_nat (length (value_start n)) = alloc_size n
  /\ size n <= alloc_size n.
Proof.
  unfold node_wf, in_range, is_u32, is_u64, is_u16. intros H.
  repeat (apply andb_prop in H as [H ?]).
  repeat match goal with
         | H : (_ <=? _) = true |- _ => apply Z.leb_le in H
         | H : (_ <? _) = true |- _ => apply Z.ltb_lt in H
         | H : (_ =? _) = true |- _ => apply Z.eqb_eq in H
         end.
  lia.
Qed.

Lemma length_assign (n : dbtuple) (max_len : Z) :
  node_wf n = true -> 0 <= max_len ->
  Z.of_nat (length (assign (value_start n) (Z.min (size n) max_len)))
  = Z.min (size n) max_len.
Proof.
  intros Hwf Hm. apply node_wf_elim in Hwf as (_ & _ & Hs & _ & Hb & Hle).
  unfold is_u16 in Hs. unfold assign. rewrite length_take. lia.
Qed.

(** C3: on a chain all of whose versions are above the reader's TID [t],
    [stable_read] walks to the null pointer at the tail and returns success
    with [start_t = MIN_TID = 0] and the empty payload, not a failure. *)
Theorem stable_read_off_tail (h : heap) (p : loc) (ns : list dbtuple)
    (t start_t : Z) (r : list byte) (max_len : Z) (fuel : nat) :
  chain h (Some p) ns ->
  Forall (fun n => t < version n) ns ->
  0 < max_len ->
  (length ns <= fuel)%nat ->
  stable_read fuel p t start_t r max_len h = Ok (true, MIN_TID, [])
  /\ MIN_TID = 0.
Proof.
  intros Hc Hall Hm Hfuel. split; [|reflexivity].
  rewrite stable_read_run by exact Hm.
  now apply (record_at_chain_too_new h t (Some p) ns).
Qed.

(** C5: a reader that enters at a node whose stable header has the latest
    flag clear and whose version is at most [t] gets [false] back at that
    node, on the first pass and with its out-parameters untouched, whatever
    the rest of the heap holds; and [stable_read] returns [false] in no
    other case: when it does, the entry node is not latest and its version
    is at most [t]. *)
Theorem stable_read_stale_head (h : heap) (p : loc) (n : dbtuple)
    (t start_t : Z) (r : list byte) (max_len : Z) :
  h !! p = Some n ->
  IsLocked (hdr n) = false ->
  0 < max_len ->
  (IsLatest (hdr n) = false -> version n <= t ->
   forall fuel, stable_read (S fuel) p t start_t r max_len h
                = Ok (false, start_t, r))
  /\ (forall fuel s r',
        stable_read fuel p t start_t r max_len h = Ok (false, s, r') ->
        IsLatest (hdr n) = false /\ version n <= t /\ s = start_t /\ r' = r).
Proof.
  intros Hn Hl Hm. split.
  - intros Hstale Hv fuel. rewrite stable_read_run by exact Hm.
    now apply (record_at_stale h p n).
  - intros fuel s r'. rewrite stable_read_run by exact Hm.
    destruct fuel as [|fuel]; [discriminate|].
    destruct (Z.le_gt_cases (version n) t) as [Hv|Hv].
    + destruct (IsLatest (hdr n)) eqn:Hlatest.
      * rewrite (record_at_found h p n Hn Hl) by auto. discriminate.
      * rewrite (record_at_stale h p n Hn Hl) by auto.
        intros [= <- <-]. auto.
    + rewrite (record_at_skip h p n Hn Hl) by exact Hv.
      destruct (next_of n) as [q|]; [|discriminate].
      intros Hq. apply record_at_no_latest_succeeds in Hq. discriminate.
Qed.

Lemma stable_read_stale_head_witness :
  let stale := mk_dbtuple HDR_TYPE_MASK 10 2 4 (Some 7%positive)
                          (S3.bytes "aa" ++ raw_bytes 2) in
  stable_read 1 1%positive 15 77 (S3.bytes "old") 1024 (<[1%positive := stale]> ∅)
  = Ok (false, 77, S3.bytes "old").
Proof.
  intros stale.
  refine (proj1 (stable_read_stale_head (<[1%positive := stale]> ∅) 1%positive
                   stale 15 77 (S3.bytes "old") 1024 _ _ _) _ _ 0%nat).
  - reflexivity.
  - reflexivity.
  - lia.
  - reflexivity.
  - simpl. lia.
Defined.

Lemma stable_read_off_tail_witness :
  let newer := mk_dbtuple (Z.lor HDR_TYPE_MASK HDR_LATEST_MASK) 10 2 4 None
                          (S3.bytes "aa" ++ raw_bytes 2) in
  stable_read 1 1%positive 5 77 (S3.bytes "old") 1024 (<[1%positive := newer]> ∅)
  = Ok (true, 0, []).
Proof.
  intros newer.
  refine (proj1 (stable_read_off_tail (<[1%positive := newer]> ∅) 1%positive
                   [newer] 5 77 (S3.bytes "old") 1024 1 _ _ _ _)).
  - apply chain_node; [reflexivity | reflexivity | apply chain_null].
  - repeat constructor.
  - lia.
  - simpl. lia.
Defined.

(** C10: [stable_read] asserts [max_len > 0], so a call with
    [max_len = 0] ends in an invariant violation.  With [max_len > 0], a
    call that finds a node whose version is at most [t] returns that node's
    version and a payload of exactly [min(size, max_len)] bytes, so never
    more than [max_len] and never more than the node's size; a call that
    walks off the tail returns a payload of length 0. *)
Theorem stable_read_payload_length (h : heap) (p : loc) (t start_t : Z)
    (r : list byte) (max_len : Z) (fuel : nat) :
  (max_len = 0 ->
   stable_read fuel p t start_t r max_len h = InvariantViolation)
  /\ (0 < max_len ->
      forall skipped m,
        walk h t p skipped m ->
        (skipped = [] -> IsLatest (hdr m) = true) ->
        node_wf m = true ->
        (length skipped < fuel)%nat ->
        exists r',
          stable_read fuel p t start_t r max_len h = Ok (true, version m, r')
          /\ r' = take (Z.to_nat (Z.min (size m) max_len)) (value_start m)
          /\ Z.of_nat (length r') = Z.min (size m) max_len
          /\ Z.of_nat (length r') <= max_len
          /\ Z.of_nat (length r') <= size m)
  /\ (0 < max_len ->
      forall ns,
        chain h (Some p) ns ->
        Forall (fun n => t < version n) ns ->
        (length ns <= fuel)%nat ->
        exists r',
          stable_read fuel p t start_t r max_len h = Ok (true, MIN_TID, r')
          /\ length r' = 0%nat).
Proof.
  split; [|split].
  - intros ->. reflexivity.
  - intros Hm skipped m Hw Hhead Hwf Hfuel.
    exists (assign (value_start m) (Z.min (size m) max_len)).
    pose proof (length_assign m max_len Hwf ltac:(lia)) as Hlen.
    split.
    { rewrite stable_read_run by exact Hm.
      apply (record_at_walk h t p skipped m Hw); auto. }
    split; [reflexivity|]. split; [exact Hlen|]. lia.
  - intros Hm ns Hc Hall Hfuel. exists [].
    split; [|reflexivity].
    rewrite stable_read_run by exact Hm.
    now apply (record_at_chain_too_new h t (Some p) ns).
Qed.

Lemma stable_read_payload_length_witness :
  let old := mk_dbtuple HDR_TYPE_MASK 10 2 8 None (S3.bytes "aa" ++ raw_bytes 6) in
  let head := mk_dbtuple (Z.lor HDR_TYPE_MASK HDR_LATEST_MASK) 20 2 4
                         (Some 2%positive) (S3.bytes "bb" ++ raw_bytes 2) in
  let h : heap := <[1%positive := head]> (<[2%positive := old]> ∅) in
  stable_read 2 1%positive 15 0 [] 0 h = InvariantViolation
  /\ exists r', stable_read 2 1%positive 15 0 [] 1 h = Ok (true, 10, r')
                /\ Z.of_nat (length r') = 1.
Proof.
  intros old head h. split.
  - exact (proj1 (stable_read_payload_length h 1%positive 15 0 [] 0 2) eq_refl).
  - destruct (proj1 (proj2 (stable_read_payload_length h 1%positive 15 0 [] 1 2))
                ltac:(lia) [head] old) as (r' & Hrun & _ & Hlen & _).
    + apply (walk_step h 15 1%positive head 2%positive [] old);
        [reflexivity | reflexivity | simpl; lia | reflexivity |].
      apply walk_here; [reflexivity | reflexivity | simpl; lia].
    + discriminate.
    + reflexivity.
    + simpl. lia.
    + exists r'. split; [exact Hrun | exact Hlen].
Defined.

(** C6: [alloc_first(big_type, requested_capacity)] makes a node whose
    header has the latest flag set, the locked, deleted and enqueued flags
    clear, the type bit as asked and counter 0, with [version = MIN_TID = 0],
    [size = 0] and a null [next]; a [stable_read] at any reader TID on the
    fresh node succeeds with [start_t = 0] and the empty payload. *)
Theorem alloc_first_fresh_cell (big : bool) (requested : Z) (h : heap) :
  0 <= requested <= max_node_size ->
  let p := fresh (dom h) in
  exists n,
    alloc_first big requested h = Ok (p, <[p := n]> h)
    /\ h !! p = None
    /\ hdr n = Z.lor (if big then HDR_TYPE_MASK else 0) HDR_LATEST_MASK
    /\ IsLatest (hdr n) = true
    /\ IsLocked (hdr n) = false
    /\ IsDeleting (hdr n) = false
    /\ IsEnqueued (hdr n) = false
    /\ IsBigType (hdr n) = big
    /\ Version (hdr n) = 0
    /\ version n = MIN_TID /\ MIN_TID = 0
    /\ size n = 0
    /\ next n = None
    /\ forall fuel t start_t r max_len,
         0 <= t -> 0 < max_len ->
         stable_read (S fuel) p t start_t r max_len (<[p := n]> h)
         = Ok (true, 0, []).
Proof.
  intros Hreq p. exists (first_node big requested).
  split; [now apply alloc_first_run|].
  split; [apply fresh_unused|].
  split; [reflexivity|].
  do 6 (split; [now destruct big|]).
  do 4 (split; [reflexivity|]).
  intros fuel t start_t r max_len Ht Hm.
  rewrite stable_read_run by exact Hm.
  rewrite (record_at_found (<[p := first_node big requested]> h) p
             (first_node big requested)).
  - cbn [first_node version size value_start]. now rewrite Z.min_l by lia.
  - apply lookup_insert_eq.
  - now destruct big.
  - simpl. unfold MIN_TID. lia.
  - intros _. now destruct big.
Qed.

Lemma alloc_first_fresh_cell_witness :
  exists n,
    alloc_first true 64 ∅ = Ok (1%positive, <[1%positive := n]> ∅)
    /\ hdr n = 0x12
    /\ stable_read 1 1%positive 100 77 (S3.bytes "old") 1024 (<[1%positive := n]> ∅)
       = Ok (true, 0, []).
Proof.
  destruct (alloc_first_fresh_cell true 64 ∅) as (n & Hrun & _ & Hhdr & H).
  - unfold max_node_size. lia.
  - exists n. split; [exact Hrun|]. split; [exact Hhdr|].
    apply H; lia.
Defined.

(** ** The writer, path by path *)

Lemma modify_insert (h : heap) this n f :
  modify this f (<[this := n]> h) = Ok (tt, <[this := f n]> h).
Proof.
  rewrite (modify_run (<[this := n]> h) this n) by apply lookup_insert_eq.
  now rewrite insert_insert_eq.
Qed.

Lemma IsLatest_cleared v : IsLatest (set_latest_word false v) = false.
Proof.
  unfold IsLatest, set_latest_word. rewrite <- Z.land_assoc.
  change (Z.land (not32 HDR_LATEST_MASK) HDR_LATEST_MASK) with 0.
  now rewrite Z.land_0_r.
Qed.

Lemma flags_kept_when_latest_cleared v :
  IsLocked (set_latest_word false v) = IsLocked v
  /\ IsBigType (set_latest_word false v) = IsBigType v
  /\ IsDeleting (set_latest_word false v) = IsDeleting v
  /\ IsEnqueued (set_latest_word false v) = IsEnqueued v
  /\ Version (set_latest_word false v) = Version v.
Proof.
  unfold IsLocked, IsBigType, IsDeleting, IsEnqueued, Version, set_latest_word.
  rewrite <- !Z.land_assoc. repeat split.
Qed.

Lemma set_latest_false_run (h : heap) this n :
  h !! this = Some n -> IsLocked (hdr n) = true ->
  set_latest this false h
  = Ok (tt, <[this := set_hdr (set_latest_word false (hdr n)) n]> h).
Proof.
  intros Hn Hl. unfold set_latest.
  rewrite (bind_run _ _ h true h)
    by (apply read_run; rewrite (is_locked_run h this n Hn); now rewrite Hl).
  rewrite (bind_run _ _ h tt h) by reflexivity.
  exact (modify_run h this n (fun m => set_hdr (set_latest_word false (hdr m)) m) Hn).
Qed.

Section WriteRecordAt.
Context (can_overwrite : Z -> Z -> bool).
Context (h : heap) (this : loc) (n : dbtuple).
Hypothesis Hn : h !! this = Some n.
Hypothesis Hwf : node_wf n = true.
Hypothesis Hlocked : IsLocked (hdr n) = true.
Hypothesis Hlatest : IsLatest (hdr n) = true.

Context (t : Z) (r : list byte) (sz : Z).

Ltac enter :=
  unfold write_record_at;
  rewrite (bind_run _ _ h true h)
    by (apply read_run; rewrite (is_locked_run h this n Hn); now rewrite Hlocked);
  rewrite (bind_run _ _ h tt h) by reflexivity;
  rewrite (bind_run _ _ h true h)
    by (apply read_run; rewrite (is_latest_run h this n Hn); now rewrite Hlatest);
  rewrite (bind_run _ _ h tt h) by reflexivity;
  rewrite (bind_run _ _ h (hdr n) h) by (now apply read_run, unstable_version_run);
  rewrite (bind_run _ _ h n h) by (now apply read_run, deref_run).

(** The three stores of an overwrite, on a heap whose node at [this] is
    [n'] with the header [hdr n]. *)
Lemma overwrite_stores (h' : heap) (n' : dbtuple) (k : M (bool * option loc)) :
  0 <= sz <= max_node_size ->
  (modify this (set_version t) ;;;
   modify this (set_size (to_u16 sz)) ;;;
   modify this (set_value (NDB_MEMCPY (value_start n) r sz)) ;;;
   k) (<[this := n']> h')
  = k (<[this := set_value (NDB_MEMCPY (value_start n) r sz)
                   (set_size sz (set_version t n'))]> h').
Proof.
  intros Hsz.
  rewrite (bind_run _ _ _ tt (<[this := set_version t n']> h'))
    by apply modify_insert.
  rewrite (bind_run _ _ _ tt (<[this := set_size sz (set_version t n')]> h'))
    by (rewrite to_u16_small by exact Hsz; apply modify_insert).
  now rewrite (bind_run _ _ _ tt
                 (<[this := set_value (NDB_MEMCPY (value_start n) r sz)
                              (set_size sz (set_version t n'))]> h'))
    by apply modify_insert.
Qed.

(** Row 1: overwrite allowed, payload fits. *)
Lemma write_in_place :
  can_overwrite (version n) t = true ->
  0 <= sz <= alloc_size n ->
  write_record_at can_overwrite this t r sz h
  = Ok ((false, None), <[this := overwritten n t r sz]> h).
Proof.
  intros Hov Hfit.
  pose proof (node_wf_elim n Hwf) as (_ & _ & _ & Hcap & _ & _).
  unfold is_u16 in Hcap.
  assert (Hsz : 0 <= sz <= max_node_size)
    by (unfold max_node_size; pow2_literals; lia).
  enter. rewrite Hov.
  replace (sz <=? alloc_size n) with true by (symmetry; apply Z.leb_le; lia).
  rewrite <- (insert_id h this n Hn) at 1.
  rewrite (bind_run _ _ _ tt (<[this := set_version t n]> h))
    by apply modify_insert.
  rewrite (bind_run _ _ _ tt (<[this := set_size sz (set_version t n)]> h))
    by (rewrite to_u16_small by exact Hsz; apply modify_insert).
  rewrite (bind_run _ _ _ (value_start n)
             (<[this := set_size sz (set_version t n)]> h)).
  2:{ apply read_run.
      apply (get_value_start_run _ this (set_size sz (set_version t n))).
      apply lookup_insert_eq. }
  now rewrite (bind_run _ _ _ tt (<[this := overwritten n t r sz]> h))
    by apply modify_insert.
Qed.

(** Rows 2 and 4: a new head in front of this node. *)
Lemma replace_head (spilled : bool) :
  0 <= sz <= max_node_size ->
  (rep <- alloc t r sz (Some this) true ;;
   b <- read (is_latest rep) ;;
   INVARIANT b ;;;
   set_latest this false ;;;
   ret (spilled, Some rep)) h
  = Ok ((spilled, Some (fresh (dom h))),
        <[this := set_hdr (set_latest_word false (hdr n)) n]>
          (<[fresh (dom h) := big_node t r sz (Some this) true]> h)).
Proof.
  intros Hsz.
  set (rep := fresh (dom h)).
  set (h1 := <[rep := big_node t r sz (Some this) true]> h).
  assert (Hne : rep <> this) by now apply (fresh_other h this n).
  assert (H1 : h1 !! this = Some n) by (unfold h1; now rewrite lookup_insert_ne).
  rewrite (bind_run _ _ h rep h1) by now apply alloc_run.
  rewrite (bind_run _ _ h1 true h1).
  2:{ apply read_run.
      apply (is_latest_run h1 rep (big_node t r sz (Some this) true)).
      apply lookup_insert_eq. }
  rewrite (bind_run _ _ h1 tt h1) by reflexivity.
  now rewrite (bind_run _ _ h1 tt
                 (<[this := set_hdr (set_latest_word false (hdr n)) n]> h1))
    by now apply set_latest_false_run.
Qed.

Lemma write_replace_overwrite :
  can_overwrite (version n) t = true ->
  alloc_size n < sz <= max_node_size ->
  write_record_at can_overwrite this t r sz h
  = Ok ((false, Some (fresh (dom h))),
        <[this := set_hdr (set_latest_word false (hdr n)) n]>
          (<[fresh (dom h) := big_node t r sz (Some this) true]> h)).
Proof.
  intros Hov Hbig.
  pose proof (node_wf_elim n Hwf) as (_ & _ & _ & Hcap & _ & _).
  unfold is_u16 in Hcap.
  enter. rewrite Hov.
  replace (sz <=? alloc_size n) with false by (symmetry; apply Z.leb_gt; lia).
  apply replace_head. lia.
Qed.

Lemma write_replace_spill :
  can_overwrite (version n) t = false ->
  IsBigType (hdr n) = false \/ alloc_size n < sz ->
  0 <= sz <= max_node_size ->
  write_record_at can_overwrite this t r sz h
  = Ok ((true, Some (fresh (dom h))),
        <[this := set_hdr (set_latest_word false (hdr n)) n]>
          (<[fresh (dom h) := big_node t r sz (Some this) true]> h)).
Proof.
  intros Hov Hcase Hsz.
  enter. rewrite Hov.
  rewrite (bind_run _ _ h (value_start n) h)
    by now apply read_run, get_value_start_run.
  replace (IsBigType (hdr n) && (sz <=? alloc_size n)) with false.
  - now apply replace_head.
  - symmetry. apply andb_false_iff.
    destruct Hcase as [Hsmall|Hbig]; [now left | right; apply Z.leb_gt; lia].
Qed.

(** Row 3: the spill. *)
Lemma write_spill :
  can_overwrite (version n) t = false ->
  IsBigType (hdr n) = true ->
  0 <= sz <= alloc_size n ->
  write_record_at can_overwrite this t r sz h
  = Ok ((true, None),
        <[this := set_big_next (Some (fresh (dom h))) (overwritten n t r sz)]>
          (<[fresh (dom h) :=
               big_node (version n) (value_start n) (size n) (next n) false]> h)).
Proof.
  intros Hov Hbig Hfit.
  pose proof (node_wf_elim n Hwf) as (_ & _ & Hs & Hcap & _ & _).
  unfold is_u16 in Hs, Hcap.
  assert (Hsz : 0 <= sz <= max_node_size)
    by (unfold max_node_size; pow2_literals; lia).
  assert (Hsize : 0 <= size n <= max_node_size)
    by (unfold max_node_size; pow2_literals; lia).
  enter. rewrite Hov.
  rewrite (bind_run _ _ h (value_start n) h)
    by now apply read_run, get_value_start_run.
  rewrite Hbig.
  replace (sz <=? alloc_size n) with true by (symmetry; apply Z.leb_le; lia).
  cbn [andb].
  set (spill := fresh (dom h)).
  set (old := big_node (version n) (value_start n) (size n) (next n) false).
  set (h1 := <[spill := old]> h).
  assert (Hne : spill <> this) by now apply (fresh_other h this n).
  assert (H1 : h1 !! this = Some n) by (unfold h1; now rewrite lookup_insert_ne).
  rewrite (bind_run _ _ h spill h1) by now apply alloc_run.
  rewrite (bind_run _ _ h1 false h1).
  2:{ apply read_run. apply (is_latest_run h1 spill old). apply lookup_insert_eq. }
  rewrite (bind_run _ _ h1 tt h1) by reflexivity.
  rewrite (bind_run _ _ h1 tt (<[this := set_big_next (Some spill) n]> h1)).
  2:{ unfold set_next.
      rewrite (bind_run _ _ h1 true h1)
        by (apply read_run; rewrite (is_big_type_run h1 this n H1); now rewrite Hbig).
      rewrite (bind_run _ _ h1 tt h1) by reflexivity.
      now apply modify_run. }
  now rewrite overwrite_stores by exact Hsz.
Qed.

(** Beyond the node size type: a payload of more than 65535 bytes never
fits in place, and the allocation of the new head stops at [alloc]'s
INVARIANT on the size. *)
Lemma write_oversized :
max_node_size < sz ->
write_record_at can_overwrite this t r sz h = InvariantViolation.
Proof.
intros Hbig.
pose proof (node_wf_elim n Hwf) as (_ & _ & _ & Hcap & _ & _).
unfold is_u16 in Hcap. unfold max_node_size in Hbig.
assert (Halloc : forall (k : loc -> M (bool * option loc)),
          bind (alloc t r sz (Some this) true) k h = InvariantViolation).
{ intros k. unfold bind at 1, alloc, bind at 1.
  replace (sz <=? max_node_size) with false
    by (symmetry; apply Z.leb_gt; unfold max_node_size; lia).
  reflexivity. }
enter.
replace (sz <=? alloc_size n) with false
  by (symmetry; apply Z.leb_gt; pow2_literals; lia).
destruct (can_overwrite (version n) t).
- apply Halloc.
- rewrite (bind_run _ _ h (value_start n) h)
    by now apply read_run, get_value_start_run.
  rewrite andb_false_r. apply Halloc.
Qed.

End WriteRecordAt.

(** ** The decision table of [write_record_at] *)

(** C1: on a locked latest node [write_record_at(txn, t, r, sz)] follows
    the four rows in order.  (1) overwrite allowed and [sz <= alloc_size]:
    version and size become [t] and [sz], the payload is copied into the
    inline buffer, the result is (false, none).  (2) overwrite allowed and
    [sz > alloc_size]: a new big latest node with the payload and
    [next = this] is allocated, this node's latest flag is cleared, the
    result is (false, that node).  (3) no overwrite, big node,
    [sz <= alloc_size]: spill, result (true, none).  (4) no overwrite and
    the node small or [sz > alloc_size]: as (2) with result (true, that
    node).  The replacement is non-null exactly when this node has stopped
    being the head.  Where a node is allocated for the payload, rows (2)
    and (4), its size is one [alloc] accepts, [sz <= 65535]. *)
Theorem write_record_at_decision_table (can_overwrite : Z -> Z -> bool)
    (h : heap) (this : loc) (n : dbtuple) (t : Z) (r : list byte) (sz : Z) :
  h !! this = Some n ->
  node_wf n = true ->
  IsLocked (hdr n) = true ->
  IsLatest (hdr n) = true ->
  0 <= sz ->
  let result := write_record_at can_overwrite this t r sz h in
  let rep := fresh (dom h) in
  let head := big_node t r sz (Some this) true in
  let demoted := set_hdr (set_latest_word false (hdr n)) n in
  let spill_node :=
    big_node (version n) (value_start n) (size n) (next n) false in
  (can_overwrite (version n) t = true -> sz <= alloc_size n ->
   result = Ok ((false, None), <[this := overwritten n t r sz]> h))
  /\ (can_overwrite (version n) t = true -> alloc_size n < sz ->
      sz <= max_node_size ->
      result = Ok ((false, Some rep), <[this := demoted]> (<[rep := head]> h)))
  /\ (can_overwrite (version n) t = false -> IsBigType (hdr n) = true ->
      sz <= alloc_size n ->
      result = Ok ((true, None),
                   <[this := set_big_next (Some rep) (overwritten n t r sz)]>
                     (<[rep := spill_node]> h)))
  /\ (can_overwrite (version n) t = false ->
      IsBigType (hdr n) = false \/ alloc_size n < sz ->
      sz <= max_node_size ->
      result = Ok ((true, Some rep), <[this := demoted]> (<[rep := head]> h)))
  /\ (version (overwritten n t r sz) = t
      /\ size (overwritten n t r sz) = sz
      /\ hdr (overwritten n t r sz) = hdr n
      /\ (sz <= Z.of_nat (length r) ->
          take (Z.to_nat sz) (value_start (overwritten n t r sz))
          = take (Z.to_nat sz) r))
  /\ (h !! rep = None
      /\ IsBigType (hdr head) = true /\ IsLatest (hdr head) = true
      /\ version head = t /\ size head = sz /\ next head = Some this
      /\ (sz <= Z.of_nat (length r) ->
          take (Z.to_nat sz) (value_start head) = take (Z.to_nat sz) r)
      /\ IsLatest (hdr demoted) = false
      /\ set_hdr (hdr n) demoted = n)
  /\ (sz <= max_node_size ->
      exists spilled replacement h' n',
        result = Ok ((spilled, replacement), h')
        /\ h' !! this = Some n'
        /\ (replacement = None <-> IsLatest (hdr n') = true)
        /\ forall q, replacement = Some q ->
             h !! q = None
             /\ exists m, h' !! q = Some m /\ IsLatest (hdr m) = true
                          /\ next_of m = Some this).
Proof.
  intros Hn Hwf Hlocked Hlatest Hsz result rep head demoted spill_node.
  pose proof (node_wf_elim n Hwf) as (_ & _ & _ & Hcap & _ & _).
  unfold is_u16 in Hcap.
  assert (Hne : rep <> this) by now apply (fresh_other h this n).
  assert (Hfresh : h !! rep = None) by apply fresh_unused.
  assert (R1 : can_overwrite (version n) t = true -> sz <= alloc_size n ->
               result = Ok ((false, None), <[this := overwritten n t r sz]> h))
    by (intros; apply write_in_place; auto; lia).
  assert (R2 : can_overwrite (version n) t = true -> alloc_size n < sz ->
               sz <= max_node_size ->
               result = Ok ((false, Some rep), <[this := demoted]> (<[rep := head]> h)))
    by (intros; apply write_replace_overwrite; auto; lia).
  assert (R3 : can_overwrite (version n) t = false -> IsBigType (hdr n) = true ->
               sz <= alloc_size n ->
               result = Ok ((true, None),
                            <[this := set_big_next (Some rep) (overwritten n t r sz)]>
                              (<[rep := spill_node]> h)))
    by (intros; apply write_spill; auto; lia).
  assert (R4 : can_overwrite (version n) t = false ->
               IsBigType (hdr n) = false \/ alloc_size n < sz ->
               sz <= max_node_size ->
               result = Ok ((true, Some rep), <[this := demoted]> (<[rep := head]> h)))
    by (intros; apply write_replace_spill; auto; lia).
  do 4 (split; [assumption|]).
  split.
  { do 3 (split; [reflexivity|]). intros Hr. now apply take_NDB_MEMCPY. }
  split.
  { split; [exact Hfresh|]. do 5 (split; [reflexivity|]).
    split; [intros Hr; now apply take_NDB_MEMCPY|].
    split; [apply IsLatest_cleared|].
    unfold demoted. rewrite set_hdr_set_hdr. apply set_hdr_same. }
  intros Hmax.
  assert (Hreplaced : forall spilled,
            result = Ok ((spilled, Some rep), <[this := demoted]> (<[rep := head]> h)) ->
            exists spilled replacement h' n',
              result = Ok ((spilled, replacement), h')
              /\ h' !! this = Some n'
              /\ (replacement = None <-> IsLatest (hdr n') = true)
              /\ forall q, replacement = Some q ->
                   h !! q = None
                   /\ exists m, h' !! q = Some m /\ IsLatest (hdr m) = true
                                /\ next_of m = Some this).
  { intros spilled Hres.
    exists spilled, (Some rep), (<[this := demoted]> (<[rep := head]> h)), demoted.
    split; [exact Hres|]. split; [apply lookup_insert_eq|].
    split.
    - unfold demoted. cbn [hdr set_hdr]. rewrite IsLatest_cleared.
      split; discriminate.
    - intros q [= <-]. split; [exact Hfresh|]. exists head.
      rewrite lookup_insert_ne by auto. rewrite lookup_insert_eq.
      repeat split. }
  assert (Hkept : forall spilled n' h',
            result = Ok ((spilled, None), <[this := n']> h') ->
            hdr n' = hdr n ->
            exists spilled replacement h' n',
              result = Ok ((spilled, replacement), h')
              /\ h' !! this = Some n'
              /\ (replacement = None <-> IsLatest (hdr n') = true)
              /\ forall q, replacement = Some q ->
                   h !! q = None
                   /\ exists m, h' !! q = Some m /\ IsLatest (hdr m) = true
                                /\ next_of m = Some this).
  { intros spilled n' h' Hres Hhdr.
    exists spilled, None, (<[this := n']> h'), n'.
    split; [exact Hres|]. split; [apply lookup_insert_eq|].
    split; [rewrite Hhdr; tauto | discriminate]. }
  destruct (can_overwrite (version n) t) eqn:Hov;
    destruct (Z.le_gt_cases sz (alloc_size n)) as [Hfit|Hbig].
  - eapply Hkept; [apply R1; auto | reflexivity].
  - eapply Hreplaced; apply R2; auto; lia.
  - destruct (IsBigType (hdr n)) eqn:Hty.
    + eapply Hkept; [apply R3; auto | reflexivity].
    + eapply Hreplaced; apply R4; auto.
  - eapply Hreplaced; apply R4; auto; right; lia.
Qed.

Lemma write_record_at_decision_table_witness :
  write_record_at S3.always_overwrite S3.this 20 (S3.bytes "bb") 2 S3.locked
  = Ok ((false, None),
        <[S3.this := overwritten S3.locked_node 20 (S3.bytes "bb") 2]> S3.locked).
Proof.
  refine (proj1 (write_record_at_decision_table S3.always_overwrite S3.locked
                   S3.this S3.locked_node 20 (S3.bytes "bb") 2 _ _ _ _ _) _ _).
  - reflexivity.
  - reflexivity.
  - reflexivity.
  - reflexivity.
  - lia.
  - reflexivity.
  - simpl. lia.
Defined.

(** C9: on a locked latest node whose version the transaction may
    overwrite, the logical delete [write_record_at(txn, t, r, 0)] takes the
    in-place branch whatever the node's type and capacity: it returns
    (false, none), leaves [size = 0] and [version = t], touches no other
    field and allocates nothing. *)
Theorem logical_delete_in_place (can_overwrite : Z -> Z -> bool)
    (h : heap) (this : loc) (n : dbtuple) (t : Z) (r : list byte) :
  h !! this = Some n ->
  node_wf n = true ->
  IsLocked (hdr n) = true ->
  IsLatest (hdr n) = true ->
  can_overwrite (version n) t = true ->
  let n' := mk_dbtuple (hdr n) t 0 (alloc_size n) (next n) (value_start n) in
  write_record_at can_overwrite this t r 0 h = Ok ((false, None), <[this := n']> h)
  /\ size n' = 0 /\ version n' = t
  /\ 0 <= alloc_size n
  /\ dom (<[this := n']> h) = dom h.
Proof.
  intros Hn Hwf Hlocked Hlatest Hov n'.
  pose proof (node_wf_elim n Hwf) as (_ & _ & _ & Hcap & _ & _).
  unfold is_u16 in Hcap.
  split.
  - rewrite (write_in_place can_overwrite h this n Hn Hwf Hlocked Hlatest t r 0 Hov)
      by lia.
    reflexivity.
  - do 2 (split; [reflexivity|]). split; [lia|].
    apply dom_insert_lookup_L. now exists n.
Qed.

Lemma logical_delete_in_place_witness :
  write_record_at S3.always_overwrite S3.this 30 [] 0 S3.locked
  = Ok ((false, None),
        <[S3.this := mk_dbtuple 0x13 30 0 4 None (S3.bytes "aa" ++ raw_bytes 2)]>
          S3.locked).
Proof.
  refine (proj1 (logical_delete_in_place S3.always_overwrite S3.locked S3.this
                   S3.locked_node 30 [] _ _ _ _ _)); reflexivity.
Defined.

(** ** The spill path *)

(** C2: on the spill path (lock held, node latest and big, overwrite not
    allowed, [sz <= alloc_size]) a new non-latest big node is allocated that
    carries this node's current payload bytes and version and whose [next]
    is this node's old [next]; this node's [next] becomes the spill node and
    this node is overwritten in place with [t], [sz] and the payload; the
    result is (true, none).  After scenario S3, [stable_read(20)] returns
    (true, 20, "bb"), [stable_read(15)] returns (true, 10, "aa") and
    [stable_read(5)] returns (true, 0, ""). *)
Theorem spill_keeps_old_version (can_overwrite : Z -> Z -> bool)
    (h : heap) (this : loc) (n : dbtuple) (t : Z) (r : list byte) (sz : Z) :
  h !! this = Some n ->
  node_wf n = true ->
  IsLocked (hdr n) = true ->
  IsLatest (hdr n) = true ->
  IsBigType (hdr n) = true ->
  can_overwrite (version n) t = false ->
  0 <= sz <= alloc_size n ->
  let spill := fresh (dom h) in
  let old := big_node (version n) (value_start n) (size n) (next n) false in
  let new := mk_dbtuple (hdr n) t sz (alloc_size n) (Some spill)
                        (NDB_MEMCPY (value_start n) r sz) in
  (write_record_at can_overwrite this t r sz h
   = Ok ((true, None), <[this := new]> (<[spill := old]> h))
   /\ h !! spill = None
   /\ IsLatest (hdr old) = false /\ IsBigType (hdr old) = true
   /\ version old = version n /\ size old = size n /\ next old = next n
   /\ take (Z.to_nat (size n)) (value_start old)
      = take (Z.to_nat (size n)) (value_start n)
   /\ (sz <= Z.of_nat (length r) ->
       take (Z.to_nat sz) (value_start new) = take (Z.to_nat sz) r))
  /\ exists after,
       S3.script S3.before = Ok ((true, None), after)
       /\ forall start_t r0,
            stable_read 2 S3.this 20 start_t r0 S3.npos after
            = Ok (true, 20, S3.bytes "bb")
            /\ stable_read 2 S3.this 15 start_t r0 S3.npos after
               = Ok (true, 10, S3.bytes "aa")
            /\ stable_read 2 S3.this 5 start_t r0 S3.npos after
               = Ok (true, 0, S3.bytes "").
Proof.
  intros Hn Hwf Hlocked Hlatest Hbig Hov Hfit spill old new. split.
  - pose proof (node_wf_elim n Hwf) as (_ & _ & Hs & _ & Hlen & Hle).
    unfold is_u16 in Hs.
    split; [now apply write_spill|].
    split; [apply fresh_unused|].
    do 5 (split; [reflexivity|]).
    split; apply take_NDB_MEMCPY; lia.
  - eexists. split; [vm_compute; reflexivity|].
    intros start_t r0. repeat split; vm_compute; reflexivity.
Qed.

Lemma spill_keeps_old_version_witness :
  let spill_node := mk_dbtuple HDR_TYPE_MASK 10 2 8 None
                               (S3.bytes "aa" ++ raw_bytes 6) in
  let head := mk_dbtuple 0x13 20 2 4 (Some 2%positive)
                         (S3.bytes "bb" ++ raw_bytes 2) in
  write_record_at S3.never_overwrite S3.this 20 (S3.bytes "bb") 2 S3.locked
  = Ok ((true, None), <[S3.this := head]> (<[2%positive := spill_node]> S3.locked)).
Proof.
  intros spill_node head.
  refine (proj1 (proj1 (spill_keeps_old_version S3.never_overwrite S3.locked
                          S3.this S3.locked_node 20 (S3.bytes "bb") 2
                          _ _ _ _ _ _ _))).
  - reflexivity.
  - reflexivity.
  - reflexivity.
  - reflexivity.
  - reflexivity.
  - reflexivity.
  - simpl. lia.
Defined.

(** * Further properties of the code *)

(** ** Header words under the flag updates *)

Lemma nonzero_lor_mask (x m : Z) : m <> 0 -> nonzero (Z.lor x m) = true.
Proof.
  intros Hm. unfold nonzero. apply negb_true_iff, Z.eqb_neq.
  intros E. apply Z.lor_eq_0_iff in E. tauto.
Qed.

(** Setting the bits of [m] leaves every field whose mask misses [m]. *)
Lemma land_lor_disjoint (v m k : Z) :
  Z.land m k = 0 -> Z.land (Z.lor v m) k = Z.land v k.
Proof. intros Hd. now rewrite Z.land_lor_distr_l, Hd, Z.lor_0_r. Qed.

Lemma unlock_word_flags (v : Z) :
  is_u32 v -> IsLocked v = true ->
  is_u32 (unlock_word v)
  /\ IsLocked (unlock_word v) = false
  /\ IsBigType (unlock_word v) = IsBigType v
  /\ IsDeleting (unlock_word v) = IsDeleting v
  /\ IsEnqueued (unlock_word v) = IsEnqueued v
  /\ IsLatest (unlock_word v) = IsLatest v.
Proof.
  intros Hr Hl. pose proof (unlock_word_arith v Hr) as Hu.
  rewrite IsLocked_arith in Hl. apply negb_true_iff, Z.eqb_neq in Hl.
  unfold is_u32 in *.
  split; [rewrite Hu; divmod_lia|].
  split; [rewrite IsLocked_arith, Hu; apply negb_false_iff, Z.eqb_eq; divmod_lia|].
  split; [rewrite !IsBigType_arith, Hu; do 2 f_equal; divmod_lia|].
  split; [rewrite !IsDeleting_arith, Hu; do 2 f_equal; divmod_lia|].
  split; [rewrite !IsEnqueued_arith, Hu; do 2 f_equal; divmod_lia|].
  rewrite !IsLatest_arith, Hu; do 2 f_equal; divmod_lia.
Qed.

Lemma clear_latest_arith (v : Z) :
  is_u32 v -> set_latest_word false v = v - v / 16 mod 2 * 16.
Proof.
  unfold is_u32. intros Hr. unfold set_latest_word.
  assert (Hsplit : v = Z.land v (not32 HDR_LATEST_MASK) + Z.land v HDR_LATEST_MASK).
  { rewrite Z.add_nocarry_lxor, Z.lxor_lor.
    - rewrite <- Z.land_lor_distr_r.
      change (Z.lor (not32 HDR_LATEST_MASK) HDR_LATEST_MASK) with (Z.ones 32).
      rewrite Z.land_ones by lia. symmetry. now apply Z.mod_small.
    - rewrite Z.land_assoc, <- (Z.land_assoc v), (Z.land_comm _ v), Z.land_assoc,
        Z.land_diag, <- Z.land_assoc.
      change (Z.land (not32 HDR_LATEST_MASK) HDR_LATEST_MASK) with 0.
      apply Z.land_0_r.
    - rewrite Z.land_assoc, <- (Z.land_assoc v), (Z.land_comm _ v), Z.land_assoc,
        Z.land_diag, <- Z.land_assoc.
      change (Z.land (not32 HDR_LATEST_MASK) HDR_LATEST_MASK) with 0.
      apply Z.land_0_r. }
  assert (Hbit : Z.land v HDR_LATEST_MASK = v / 16 mod 2 * 16).
  { change HDR_LATEST_MASK with (Z.shiftl (Z.ones 1) 4).
    rewrite land_shifted_ones, Z.shiftr_div_pow2 by lia. reflexivity. }
  lia.
Qed.

Lemma clear_latest_u32 (v : Z) : is_u32 v -> is_u32 (set_latest_word false v).
Proof.
  intros Hr. rewrite clear_latest_arith by exact Hr. unfold is_u32 in *. divmod_lia.
Qed.

Lemma bind_stop {A B : Type} (m : M A) (k : A -> M B) h :
  m h = InvariantViolation -> bind m k h = InvariantViolation.
Proof. intros E. unfold bind. now rewrite E. Qed.

(** ** Taking the lock *)

(** X1: [lock] on an unlocked node sets the lock bit and nothing else (the
    flags above it and the counter stay) and returns the header it stored;
    on a node that is already locked it never returns, also for the thread
    that holds the lock: a second [lock] after a first one spins.  [unlock]
    on an unlocked node stops at its INVARIANT. *)
Theorem lock_sets_only_lock_bit (h : heap) (this : loc) (n : dbtuple) :
  h !! this = Some n ->
  (IsLocked (hdr n) = false ->
   exists v,
     lock this h = Ok (v, <[this := set_hdr v n]> h)
     /\ IsLocked v = true
     /\ IsBigType v = IsBigType (hdr n)
     /\ IsDeleting v = IsDeleting (hdr n)
     /\ IsEnqueued v = IsEnqueued (hdr n)
     /\ IsLatest v = IsLatest (hdr n)
     /\ Version v = Version (hdr n)
     /\ (_ <- lock this ;; lock this) h = Spins
     /\ unlock this h = InvariantViolation)
  /\ (IsLocked (hdr n) = true -> lock this h = Spins).
Proof.
  intros Hn.
  assert (Hspin : forall (h' : heap) n', h' !! this = Some n' ->
                    IsLocked (hdr n') = true -> lock this h' = Spins).
  { intros h' n' Hn' Hl. unfold lock.
    rewrite (bind_run _ _ h' (hdr n') h') by now apply read_run, unstable_version_run.
    now rewrite Hl. }
  split; [|now apply Hspin].
  intros Hl. exists (hdr n + 1).
  pose proof Hl as Heven. rewrite IsLocked_arith in Heven.
  apply negb_false_iff, Z.eqb_eq in Heven.
  assert (Hlk : IsLocked (hdr n + 1) = true)
    by (rewrite IsLocked_arith; apply negb_true_iff, Z.eqb_neq; divmod_lia).
  split; [now apply lock_run|].
  split; [exact Hlk|].
  split; [rewrite !IsBigType_arith; do 2 f_equal; divmod_lia|].
  split; [rewrite !IsDeleting_arith; do 2 f_equal; divmod_lia|].
  split; [rewrite !IsEnqueued_arith; do 2 f_equal; divmod_lia|].
  split; [rewrite !IsLatest_arith; do 2 f_equal; divmod_lia|].
  split; [rewrite !Version_arith; f_equal; divmod_lia|].
  split.
  - rewrite (bind_run _ _ h (hdr n + 1) (<[this := set_hdr (hdr n + 1) n]> h))
      by now apply lock_run.
    apply (Hspin _ (set_hdr (hdr n + 1) n)); [apply lookup_insert_eq | exact Hlk].
  - unfold unlock.
    rewrite (bind_run _ _ h (hdr n) h) by now apply read_run, unstable_version_run.
    now rewrite Hl.
Qed.

Lemma lock_sets_only_lock_bit_witness :
  exists v,
    lock S3.this S3.before = Ok (v, <[S3.this := set_hdr v S3.node]> S3.before)
    /\ IsLocked v = true
    /\ (_ <- lock S3.this ;; lock S3.this) S3.before = Spins.
Proof.
  destruct (proj1 (lock_sets_only_lock_bit S3.before S3.this S3.node eq_refl) eq_refl)
    as (v & Hrun & Hlk & _ & _ & _ & _ & _ & Hagain & _).
  exists v. split; [exact Hrun|]. split; [exact Hlk | exact Hagain].
Defined.

(** ** The latest flag *)

Lemma set_latest_true_run (h : heap) this n :
  h !! this = Some n -> IsLocked (hdr n) = true ->
  set_latest this true h
  = Ok (tt, <[this := set_hdr (set_latest_word true (hdr n)) n]> h).
Proof.
  intros Hn Hl. unfold set_latest.
  rewrite (bind_run _ _ h true h)
    by (apply read_run; rewrite (is_locked_run h this n Hn); now rewrite Hl).
  rewrite (bind_run _ _ h tt h) by reflexivity.
  exact (modify_run h this n (fun m => set_hdr (set_latest_word true (hdr m)) m) Hn).
Qed.

(** X2: under the lock [set_latest(latest)] makes the latest flag equal to
    its argument and leaves the lock, type, deleting and enqueued bits and
    the counter as they were; without the lock it stops at its INVARIANT
    and changes nothing. *)
Theorem set_latest_only_latest_bit (h : heap) (this : loc) (n : dbtuple)
    (latest : bool) :
  h !! this = Some n ->
  (IsLocked (hdr n) = true ->
   let v := set_latest_word latest (hdr n) in
   set_latest this latest h = Ok (tt, <[this := set_hdr v n]> h)
   /\ IsLatest v = latest
   /\ IsLocked v = true
   /\ IsBigType v = IsBigType (hdr n)
   /\ IsDeleting v = IsDeleting (hdr n)
   /\ IsEnqueued v = IsEnqueued (hdr n)
   /\ Version v = Version (hdr n))
  /\ (IsLocked (hdr n) = false ->
      set_latest this latest h = InvariantViolation).
Proof.
  intros Hn. split.
  - intros Hl v. destruct latest.
    + split; [now apply set_latest_true_run|].
      unfold v, set_latest_word.
      split; [unfold IsLatest; rewrite Z.land_lor_distr_l;
              apply nonzero_lor_mask; discriminate|].
      unfold IsLocked, IsBigType, IsDeleting, IsEnqueued, Version in *.
      rewrite !land_lor_disjoint by reflexivity. auto.
    + split; [now apply set_latest_false_run|].
      split; [apply IsLatest_cleared|].
      destruct (flags_kept_when_latest_cleared (hdr n)) as (H1 & H2 & H3 & H4 & H5).
      unfold v. rewrite H1. auto.
  - intros Hl. unfold set_latest.
    rewrite (bind_run _ _ h false h)
      by (apply read_run; rewrite (is_locked_run h this n Hn); now rewrite Hl).
    reflexivity.
Qed.

Lemma set_latest_only_latest_bit_witness :
  set_latest S3.this false S3.locked
  = Ok (tt, <[S3.this := set_hdr 0x3 S3.locked_node]> S3.locked)
  /\ set_latest S3.this false S3.before = InvariantViolation.
Proof.
  split.
  - exact (proj1 (proj1 (set_latest_only_latest_bit S3.locked S3.this
                           S3.locked_node false eq_refl) eq_refl)).
  - exact (proj2 (set_latest_only_latest_bit S3.before S3.this
                    S3.node false eq_refl) eq_refl).
Defined.

(** ** The deleting mark *)

Lemma mark_deleting_run (h : heap) this n :
  h !! this = Some n ->
  mark_deleting this h
  = if (negb (IsLatest (hdr n)) || IsLocked (hdr n))
       && negb (IsEnqueued (hdr n)) && negb (IsDeleting (hdr n))
    then Ok (tt, <[this := set_hdr (deleting_word (hdr n)) n]> h)
    else InvariantViolation.
Proof.
  intros Hn. unfold mark_deleting.
  rewrite (bind_run _ _ h (IsLatest (hdr n)) h) by now apply read_run, is_latest_run.
  rewrite (bind_run _ _ h (IsLocked (hdr n)) h) by now apply read_run, is_locked_run.
  destruct (negb (IsLatest (hdr n)) || IsLocked (hdr n)); [|reflexivity].
  rewrite (bind_run _ _ h tt h) by reflexivity.
  rewrite (bind_run _ _ h (IsEnqueued (hdr n)) h).
  2:{ apply read_run. unfold is_enqueued.
      now rewrite (rbind_run _ _ h n) by now apply deref_run. }
  destruct (IsEnqueued (hdr n)); [reflexivity|].
  rewrite (bind_run _ _ h tt h) by reflexivity.
  rewrite (bind_run _ _ h (IsDeleting (hdr n)) h).
  2:{ apply read_run. unfold is_deleting.
      now rewrite (rbind_run _ _ h n) by now apply deref_run. }
  destruct (IsDeleting (hdr n)); [reflexivity|].
  rewrite (bind_run _ _ h tt h) by reflexivity.
  exact (modify_run h this n (fun m => set_hdr (deleting_word (hdr m)) m) Hn).
Qed.

(** X3: [mark_deleting] on a node that is not yet deleting, not enqueued
    and either not latest or locked sets the deleting bit and leaves every
    other bit and the counter; a second [mark_deleting] on the same node
    stops at the INVARIANT, as does one on an unlocked latest node. *)
Theorem mark_deleting_once (h : heap) (this : loc) (n : dbtuple) :
  h !! this = Some n ->
  (IsLatest (hdr n) = false \/ IsLocked (hdr n) = true ->
   IsEnqueued (hdr n) = false ->
   IsDeleting (hdr n) = false ->
   let v := deleting_word (hdr n) in
   mark_deleting this h = Ok (tt, <[this := set_hdr v n]> h)
   /\ IsDeleting v = true
   /\ IsLocked v = IsLocked (hdr n)
   /\ IsBigType v = IsBigType (hdr n)
   /\ IsEnqueued v = false
   /\ IsLatest v = IsLatest (hdr n)
   /\ Version v = Version (hdr n)
   /\ (mark_deleting this ;;; mark_deleting this) h = InvariantViolation)
  /\ (IsLatest (hdr n) = true -> IsLocked (hdr n) = false ->
      mark_deleting this h = InvariantViolation)
  /\ (IsDeleting (hdr n) = true -> mark_deleting this h = InvariantViolation).
Proof.
  intros Hn. split; [|split].
  - intros Hguard He Hd v.
    assert (Hrun : mark_deleting this h = Ok (tt, <[this := set_hdr v n]> h)).
    { rewrite (mark_deleting_run h this n Hn), He, Hd.
      destruct Hguard as [-> | ->]; [reflexivity|].
      now rewrite orb_true_r. }
    assert (Hset : IsDeleting v = true).
    { unfold v, deleting_word, IsDeleting. rewrite Z.land_lor_distr_l.
      apply nonzero_lor_mask. discriminate. }
    assert (Htwice : (mark_deleting this ;;; mark_deleting this) h = InvariantViolation).
    { rewrite (bind_run _ _ h tt _ Hrun).
      rewrite (mark_deleting_run _ this (set_hdr v n)) by apply lookup_insert_eq.
      cbn [hdr set_hdr]. rewrite Hset. now rewrite andb_false_r. }
    split; [exact Hrun|]. split; [exact Hset|].
    unfold v, deleting_word, IsLocked, IsBigType, IsEnqueued, IsLatest, Version in *.
    rewrite !land_lor_disjoint by reflexivity.
    do 5 (split; [auto|]). exact Htwice.
  - intros Hl Hk. now rewrite (mark_deleting_run h this n Hn), Hl, Hk.
  - intros Hd. rewrite (mark_deleting_run h this n Hn), Hd. now rewrite andb_false_r.
Qed.

Lemma mark_deleting_once_witness :
  mark_deleting S3.this S3.locked
  = Ok (tt, <[S3.this := set_hdr 0x17 S3.locked_node]> S3.locked)
  /\ mark_deleting S3.this S3.before = InvariantViolation.
Proof.
  split.
  - exact (proj1 (proj1 (mark_deleting_once S3.locked S3.this S3.locked_node eq_refl)
                    (or_intror eq_refl) eq_refl eq_refl)).
  - exact (proj1 (proj2 (mark_deleting_once S3.before S3.this S3.node eq_refl))
             eq_refl eq_refl).
Defined.

(** ** Readers that give up instead of waiting *)

Lemma try_stable_spin_run (h : heap) this n :
  h !! this = Some n ->
  forall spins, try_stable_spin spins this (hdr n) h = Ok (hdr n).
Proof.
  intros Hn. induction spins as [|spins IH]; [reflexivity|].
  cbn [try_stable_spin]. destruct (IsLocked (hdr n)); [|reflexivity].
  now rewrite (rbind_run _ _ h (hdr n)) by now apply unstable_version_run.
Qed.

Lemma try_stable_version_run (h : heap) this n spins :
  h !! this = Some n ->
  try_stable_version this spins h = Ok (negb (IsLocked (hdr n)), hdr n).
Proof.
  intros Hn. unfold try_stable_version.
  rewrite (rbind_run _ _ h (hdr n)) by now apply unstable_version_run.
  now rewrite (rbind_run _ _ h (hdr n)) by now apply try_stable_spin_run.
Qed.

Lemma stable_is_latest_version_run (h : heap) this n t :
  h !! this = Some n ->
  stable_is_latest_version this t h
  = Ok (negb (IsLocked (hdr n)) && IsLatest (hdr n) && (version n <=? t)).
Proof.
  intros Hn. unfold stable_is_latest_version.
  rewrite (rbind_run _ _ h (negb (IsLocked (hdr n)), hdr n))
    by now apply try_stable_version_run.
  cbn [fst snd].
  destruct (IsLocked (hdr n)); [reflexivity|]. cbn [negb andb].
  destruct (IsLatest (hdr n)).
  - rewrite (rbind_run _ _ h (version n <=? t)) by now apply is_not_behind_run.
    destruct (version n <=? t); [|reflexivity].
    now apply check_version_run.
  - now rewrite (rbind_run _ _ h false) by reflexivity.
Qed.

Lemma stable_latest_value_is_nil_run (h : heap) this n :
  h !! this = Some n ->
  stable_latest_value_is_nil this h
  = Ok (negb (IsLocked (hdr n)) && IsLatest (hdr n) && (size n =? 0)).
Proof.
  intros Hn. unfold stable_latest_value_is_nil.
  rewrite (rbind_run _ _ h (negb (IsLocked (hdr n)), hdr n))
    by now apply try_stable_version_run.
  cbn [fst snd].
  destruct (IsLocked (hdr n)); [reflexivity|]. cbn [negb andb].
  destruct (IsLatest (hdr n)).
  - rewrite (rbind_run _ _ h (size n =? 0))
      by now rewrite (rbind_run _ _ h n) by now apply deref_run.
    destruct (size n =? 0); [|reflexivity].
    now apply check_version_run.
  - now rewrite (rbind_run _ _ h false) by reflexivity.
Qed.

(** X4: the bounded readers return on every node.  [try_stable_version]
    reports whether the header is unlocked, for every spin budget;
    [stable_is_latest_version(t)] is true exactly when the node is unlocked,
    latest and not behind [t], and [stable_latest_value_is_nil] exactly when
    it is unlocked, latest and of size 0: on a locked node both answer
    false, where [stable_read] waits for ever.  On an unlocked node they
    agree with [is_latest_version] and [latest_value_is_nil]. *)
Theorem bounded_readers_never_wait (h : heap) (this : loc) (n : dbtuple) (t : Z) :
  h !! this = Some n ->
  let unlocked := negb (IsLocked (hdr n)) in
  (forall spins, try_stable_version this spins h = Ok (unlocked, hdr n))
  /\ stable_is_latest_version this t h
     = Ok (unlocked && IsLatest (hdr n) && (version n <=? t))
  /\ stable_latest_value_is_nil this h
     = Ok (unlocked && IsLatest (hdr n) && (size n =? 0))
  /\ is_latest_version this t h = Ok (IsLatest (hdr n) && (version n <=? t))
  /\ latest_value_is_nil this h = Ok (IsLatest (hdr n) && (size n =? 0))
  /\ (IsLocked (hdr n) = true ->
      forall fuel start_t r max_len,
        0 < max_len ->
        stable_read (S fuel) this t start_t r max_len h = Spins).
Proof.
  intros Hn unlocked.
  split; [intros spins; now apply try_stable_version_run|].
  split; [now apply stable_is_latest_version_run|].
  split; [now apply stable_latest_value_is_nil_run|].
  split.
  { unfold is_latest_version.
    rewrite (rbind_run _ _ h (IsLatest (hdr n))) by now apply is_latest_run.
    destruct (IsLatest (hdr n)); [now apply is_not_behind_run | reflexivity]. }
  split.
  { unfold latest_value_is_nil.
    rewrite (rbind_run _ _ h (IsLatest (hdr n))) by now apply is_latest_run.
    now rewrite (rbind_run _ _ h n) by now apply deref_run. }
  intros Hl fuel start_t r max_len Hm.
  rewrite stable_read_run by exact Hm. cbn [record_at].
  unfold rbind at 1, stable_version.
  rewrite (rbind_run _ _ h (hdr n)) by now apply unstable_version_run.
  now rewrite Hl.
Qed.

Lemma bounded_readers_never_wait_witness :
  stable_is_latest_version S3.this 15 S3.locked = Ok false
  /\ stable_is_latest_version S3.this 15 S3.before = Ok true
  /\ stable_read 1 S3.this 15 0 [] S3.npos S3.locked = Spins.
Proof.
  destruct (bounded_readers_never_wait S3.locked S3.this S3.locked_node 15 eq_refl)
    as (_ & Hl & _ & _ & _ & Hspin).
  destruct (bounded_readers_never_wait S3.before S3.this S3.node 15 eq_refl)
    as (_ & Hu & _).
  split; [exact Hl|]. split; [exact Hu|].
  apply Hspin; reflexivity.
Defined.

(** ** The counter wraps: the ABA window *)

(** X5: a header word is back at the same value after exactly [2 ^ 27]
    rounds of lock and unlock, so [check_version] against a header read
    before them succeeds; after any smaller positive number of rounds the
    header differs and [check_version] fails. *)
Theorem check_version_aba_window (h : heap) (this : loc) (n : dbtuple) (k : nat) :
  h !! this = Some n ->
  is_u32 (hdr n) ->
  IsLocked (hdr n) = false ->
  exists w,
    lock_unlock k this h = Ok (tt, <[this := set_hdr w n]> h)
    /\ check_version this (hdr n) (<[this := set_hdr w n]> h)
       = Ok (Z.of_nat k mod 2 ^ 27 =? 0).
Proof.
  intros Hn Hr Hl.
  destruct (lock_unlock_run k h this n Hn Hr Hl) as (w & Hrun & Hrw & Hver & Hlow).
  exists w. split; [exact Hrun|].
  unfold check_version.
  rewrite (rbind_run _ _ _ w)
    by (apply (unstable_version_run _ this (set_hdr w n)), lookup_insert_eq).
  unfold rret. f_equal.
  rewrite !Version_arith in Hver. unfold is_u32 in *.
  destruct (Z.eqb_spec (Z.of_nat k mod 2 ^ 27) 0) as [E|E].
  - apply Z.eqb_eq.
    assert (w / 32 = hdr n / 32).
    { rewrite (Z.mod_small (w / 32)), (Z.mod_small (hdr n / 32)) in Hver by divmod_lia.
      rewrite Hver, <- Zplus_mod_idemp_r, E, Z.add_0_r.
      apply Z.mod_small. divmod_lia. }
    divmod_lia.
  - apply Z.eqb_neq. intros ->. apply E.
    rewrite (Z.mod_small (hdr n / 32)) in Hver by divmod_lia.
    assert (Hk : 0 <= Z.of_nat k) by lia.
    revert Hver. generalize (Z.of_nat k) Hk. intros z Hz Hver.
    divmod_lia.
Qed.

Lemma check_version_aba_window_witness :
  exists w,
    lock_unlock 3 S3.this S3.before = Ok (tt, <[S3.this := set_hdr w S3.node]> S3.before)
    /\ check_version S3.this (hdr S3.node) (<[S3.this := set_hdr w S3.node]> S3.before)
       = Ok false.
Proof.
  destruct (check_version_aba_window S3.before S3.this S3.node 3 eq_refl)
    as (w & Hrun & Hchk).
  - change (is_u32 18). unfold is_u32. pow2_literals. lia.
  - reflexivity.
  - exists w. split; [exact Hrun | exact Hchk].
Defined.

(** ** A write, the unlock, and the readers that follow *)

Lemma take_le_NDB_MEMCPY (dst src : list byte) (k sz : Z) :
  0 <= k <= sz -> sz <= Z.of_nat (length src) ->
  take (Z.to_nat k) (NDB_MEMCPY dst src sz) = take (Z.to_nat k) src.
Proof.
  intros Hk Hs. unfold NDB_MEMCPY.
  rewrite take_app_le by (rewrite length_take; lia).
  rewrite take_take. f_equal. lia.
Qed.

Lemma assign_NDB_MEMCPY (dst src : list byte) (sz max_len : Z) :
  0 <= sz <= Z.of_nat (length src) -> 0 < max_len ->
  assign (NDB_MEMCPY dst src sz) (Z.min sz max_len)
  = take (Z.to_nat (Z.min sz max_len)) src.
Proof. intros Hs Hm. unfold assign. apply take_le_NDB_MEMCPY; lia. Qed.

Section WriteThenUnlock.
Context (can_overwrite : Z -> Z -> bool).
Context (h : heap) (this : loc) (n : dbtuple).
Hypothesis Hn : h !! this = Some n.
Hypothesis Hwf : node_wf n = true.
Hypothesis Hlocked : IsLocked (hdr n) = true.
Hypothesis Hlatest : IsLatest (hdr n) = true.

Context (t : Z) (r : list byte) (sz : Z).

(** The header of this node after the unlock, where the write kept it the
    head and where it did not. *)
Let kept : Z := unlock_word (hdr n).
Let gone : Z := unlock_word (set_latest_word false (hdr n)).

Lemma kept_flags :
  IsLocked kept = false /\ IsLatest kept = true
  /\ IsBigType kept = IsBigType (hdr n) /\ is_u32 kept.
Proof.
  pose proof (node_wf_elim n Hwf) as (Hr & _).
  destruct (unlock_word_flags (hdr n) Hr Hlocked) as (H0 & H1 & H2 & _ & _ & H5).
  unfold kept. rewrite H5. auto.
Qed.

Lemma gone_flags :
  IsLocked gone = false /\ IsLatest gone = false
  /\ IsBigType gone = IsBigType (hdr n) /\ is_u32 gone.
Proof.
  pose proof (node_wf_elim n Hwf) as (Hr & _).
  destruct (flags_kept_when_latest_cleared (hdr n)) as (F1 & F2 & _).
  assert (Hl : IsLocked (set_latest_word false (hdr n)) = true) by now rewrite F1.
  destruct (unlock_word_flags _ (clear_latest_u32 _ Hr) Hl) as (H0 & H1 & H2 & _ & _ & H5).
  unfold gone. rewrite H5, IsLatest_cleared, H2, F2. auto.
Qed.

Lemma unlock_after (h' : heap) (n' : dbtuple) :
  IsLocked (hdr n') = true -> is_u32 (hdr n') ->
  unlock this (<[this := n']> h')
  = Ok (tt, <[this := set_hdr (unlock_word (hdr n')) n']> h').
Proof.
  intros Hl Hr.
  rewrite (unlock_run (<[this := n']> h') this n') by (auto; apply lookup_insert_eq).
  now rewrite insert_insert_eq.
Qed.

Lemma write_unlock_in_place :
  can_overwrite (version n) t = true ->
  0 <= sz <= alloc_size n ->
  write_then_unlock can_overwrite this t r sz h
  = Ok ((false, None), <[this := set_hdr kept (overwritten n t r sz)]> h).
Proof.
  intros Hov Hfit. pose proof (node_wf_elim n Hwf) as (Hr & _).
  unfold write_then_unlock.
  rewrite (bind_run _ _ h (false, None) (<[this := overwritten n t r sz]> h))
    by now apply write_in_place.
  now rewrite (bind_run _ _ _ tt (<[this := set_hdr kept (overwritten n t r sz)]> h))
    by now apply unlock_after.
Qed.

Lemma write_unlock_spill :
  can_overwrite (version n) t = false ->
  IsBigType (hdr n) = true ->
  0 <= sz <= alloc_size n ->
  write_then_unlock can_overwrite this t r sz h
  = Ok ((true, None),
        <[this := set_hdr kept
                    (set_big_next (Some (fresh (dom h))) (overwritten n t r sz))]>
          (<[fresh (dom h) :=
               big_node (version n) (value_start n) (size n) (next n) false]> h)).
Proof.
  intros Hov Hbig Hfit. pose proof (node_wf_elim n Hwf) as (Hr & _).
  unfold write_then_unlock.
  rewrite (bind_run _ _ h _ _ (write_spill can_overwrite h this n Hn Hwf Hlocked
                                 Hlatest t r sz Hov Hbig Hfit)).
  cbn [fst snd].
  rewrite (bind_run _ _ _ tt _
             (unlock_after _ (set_big_next (Some (fresh (dom h))) (overwritten n t r sz))
                Hlocked Hr)).
  reflexivity.
Qed.

Lemma write_unlock_replace :
  (can_overwrite (version n) t = true /\ alloc_size n < sz)
  \/ (can_overwrite (version n) t = false
      /\ (IsBigType (hdr n) = false \/ alloc_size n < sz)) ->
  0 <= sz <= max_node_size ->
  write_then_unlock can_overwrite this t r sz h
  = Ok ((negb (can_overwrite (version n) t), Some (fresh (dom h))),
        <[this := set_hdr gone n]>
          (<[fresh (dom h) := big_node t r sz (Some this) true]> h)).
Proof.
  intros Hcase Hsz. pose proof (node_wf_elim n Hwf) as (Hr & _).
  destruct (flags_kept_when_latest_cleared (hdr n)) as (F1 & _).
  assert (Hl : IsLocked (set_latest_word false (hdr n)) = true) by now rewrite F1.
  unfold write_then_unlock.
  assert (Hw : write_record_at can_overwrite this t r sz h
               = Ok ((negb (can_overwrite (version n) t), Some (fresh (dom h))),
                     <[this := set_hdr (set_latest_word false (hdr n)) n]>
                       (<[fresh (dom h) := big_node t r sz (Some this) true]> h))).
  { destruct Hcase as [[Hov Hbig] | [Hov Hwhy]]; rewrite Hov.
    - apply write_replace_overwrite; auto; lia.
    - apply write_replace_spill; auto. }
  rewrite (bind_run _ _ h _ _ Hw). cbn [fst snd].
  rewrite (bind_run _ _ _ tt _
             (unlock_after _ (set_hdr (set_latest_word false (hdr n)) n) Hl
                (clear_latest_u32 _ Hr))).
  reflexivity.
Qed.

End WriteThenUnlock.

(** The three ways a write within the node size bound can go. *)
Lemma write_cases (can_overwrite : Z -> Z -> bool) (n : dbtuple) (t sz : Z) :
  (can_overwrite (version n) t = true /\ sz <= alloc_size n)
  \/ (can_overwrite (version n) t = false /\ IsBigType (hdr n) = true
      /\ sz <= alloc_size n)
  \/ ((can_overwrite (version n) t = true /\ alloc_size n < sz)
      \/ (can_overwrite (version n) t = false
          /\ (IsBigType (hdr n) = false \/ alloc_size n < sz))).
Proof.
  destruct (can_overwrite (version n) t);
    destruct (Z.le_gt_cases sz (alloc_size n)) as [Hfit|Hbigger].
  - left. auto.
  - right. right. left. split; [reflexivity | lia].
  - destruct (IsBigType (hdr n)).
    + right. left. auto.
    + right. right. right. auto.
  - right. right. right. split; [reflexivity | right; lia].
Qed.

(** X6: round trip.  After [write_record_at(txn, t, r, sz)] and [unlock]
    on a locked latest node, a [stable_read] through the node the index
    then points at (the replacement if one was returned, else the node
    itself) at any TID [t' >= t] returns (true, [t], the first
    [min(sz, max_len)] bytes of [r]), whichever path the write took. *)
Theorem write_then_read_back (can_overwrite : Z -> Z -> bool)
    (h : heap) (this : loc) (n : dbtuple) (t : Z) (r : list byte) (sz : Z) :
  h !! this = Some n ->
  node_wf n = true ->
  IsLocked (hdr n) = true ->
  IsLatest (hdr n) = true ->
  0 <= sz <= max_node_size ->
  sz <= Z.of_nat (length r) ->
  exists res h',
    write_then_unlock can_overwrite this t r sz h = Ok (res, h')
    /\ forall t' fuel start_t r0 max_len,
         t <= t' -> 0 < max_len ->
         stable_read (S fuel) (index_head this res) t' start_t r0 max_len h'
         = Ok (true, t, take (Z.to_nat (Z.min sz max_len)) r).
Proof.
  intros Hn Hwf Hlocked Hlatest Hsz Hr.
  destruct (kept_flags n Hwf Hlocked Hlatest) as (Kl & Kt & _ & _).
  destruct (write_cases can_overwrite n t sz) as [[Hov Hfit] | [(Hov & Hbig & Hfit) | Hrep]].
  - eexists _, _.
    split; [apply (write_unlock_in_place can_overwrite h this n Hn Hwf Hlocked Hlatest
                     t r sz Hov); lia|].
    intros t' fuel start_t r0 max_len Ht Hm. cbn [index_head snd].
    rewrite stable_read_run by exact Hm.
    rewrite (record_at_found _ this (set_hdr (unlock_word (hdr n)) (overwritten n t r sz)))
      by (auto; apply lookup_insert_eq).
    cbn [version size value_start set_hdr overwritten].
    now rewrite assign_NDB_MEMCPY by lia.
  - eexists _, _.
    split; [apply (write_unlock_spill can_overwrite h this n Hn Hwf Hlocked Hlatest
                     t r sz Hov Hbig); lia|].
    intros t' fuel start_t r0 max_len Ht Hm. cbn [index_head snd].
    rewrite stable_read_run by exact Hm.
    rewrite (record_at_found _ this
               (set_hdr (unlock_word (hdr n))
                  (set_big_next (Some (fresh (dom h))) (overwritten n t r sz))))
      by (auto; apply lookup_insert_eq).
    cbn [version size value_start set_hdr set_big_next overwritten].
    now rewrite assign_NDB_MEMCPY by lia.
  - eexists _, _.
    split; [exact (write_unlock_replace can_overwrite h this n Hn Hwf Hlocked Hlatest
                     t r sz Hrep Hsz)|].
    intros t' fuel start_t r0 max_len Ht Hm. cbn [index_head snd].
    rewrite stable_read_run by exact Hm.
    rewrite (record_at_found _ (fresh (dom h)) (big_node t r sz (Some this) true)).
    + cbn [version size value_start big_node].
      now rewrite assign_NDB_MEMCPY by lia.
    + rewrite lookup_insert_ne by (apply not_eq_sym; now apply (fresh_other h this n)).
      apply lookup_insert_eq.
    + reflexivity.
    + exact Ht.
    + reflexivity.
Qed.

Lemma write_then_read_back_witness :
  exists res h',
    write_then_unlock S3.always_overwrite S3.this 20 (S3.bytes "hello") 5 S3.locked
    = Ok (res, h')
    /\ stable_read 1 (index_head S3.this res) 20 0 [] S3.npos h'
       = Ok (true, 20, S3.bytes "hello").
Proof.
  destruct (write_then_read_back S3.always_overwrite S3.locked S3.this S3.locked_node
              20 (S3.bytes "hello") 5) as (res & h' & Hrun & Hread).
  - reflexivity.
  - reflexivity.
  - reflexivity.
  - reflexivity.
  - unfold max_node_size. lia.
  - simpl. lia.
  - exists res, h'. split; [exact Hrun|].
    apply (Hread 20 0%nat 0 [] S3.npos); [lia | reflexivity].
Defined.

(** X7: what becomes of the version a write supersedes.  Whenever the
    write does not overwrite in place (the transaction forbids it, or the
    payload does not fit), a reader whose TID lies between the old version
    and [t] still gets the old version and the old payload through the
    node the index points at.  When the write overwrites in place a node
    without older versions, such a reader is told the record is deleted at
    MIN_TID: the old version is gone. *)
Theorem superseded_version_after_write (can_overwrite : Z -> Z -> bool)
    (h : heap) (this : loc) (n : dbtuple) (t : Z) (r : list byte) (sz : Z) :
  h !! this = Some n ->
  node_wf n = true ->
  IsLocked (hdr n) = true ->
  IsLatest (hdr n) = true ->
  0 <= sz <= max_node_size ->
  exists res h',
    write_then_unlock can_overwrite this t r sz h = Ok (res, h')
    /\ forall t' fuel start_t r0 max_len,
         version n <= t' -> t' < t -> 0 < max_len ->
         (can_overwrite (version n) t = false \/ alloc_size n < sz ->
          stable_read (S (S fuel)) (index_head this res) t' start_t r0 max_len h'
          = Ok (true, version n,
                take (Z.to_nat (Z.min (size n) max_len)) (value_start n)))
         /\ (can_overwrite (version n) t = true -> sz <= alloc_size n ->
             next_of n = None ->
             stable_read (S fuel) (index_head this res) t' start_t r0 max_len h'
             = Ok (true, MIN_TID, [])).
Proof.
  intros Hn Hwf Hlocked Hlatest Hsz.
  destruct (kept_flags n Hwf Hlocked Hlatest) as (Kl & Kt & Kb & _).
  destruct (gone_flags n Hwf Hlocked) as (Gl & Gt & Gb & _).
  pose proof (node_wf_elim n Hwf) as (_ & _ & Hs & _ & Hlen & Hle).
  unfold is_u16 in Hs.
  assert (Hne : fresh (dom h) <> this) by now apply (fresh_other h this n).
  destruct (write_cases can_overwrite n t sz) as [[Hov Hfit] | [(Hov & Hbig & Hfit) | Hrep]].
  - eexists _, _.
    split; [apply (write_unlock_in_place can_overwrite h this n Hn Hwf Hlocked Hlatest
                     t r sz Hov); lia|].
    intros t' fuel start_t r0 max_len Hold Hnew Hm. cbn [index_head snd]. split.
    + intros [Hno | Hbigger]; [congruence | lia].
    + intros _ _ Htail. rewrite stable_read_run by exact Hm.
      rewrite (record_at_skip _ this (set_hdr (unlock_word (hdr n)) (overwritten n t r sz)))
        by (auto; apply lookup_insert_eq).
      unfold next_of in *. cbn [hdr next set_hdr overwritten]. rewrite Kb.
      now rewrite Htail.
  - eexists _, _.
    split; [apply (write_unlock_spill can_overwrite h this n Hn Hwf Hlocked Hlatest
                     t r sz Hov Hbig); lia|].
    intros t' fuel start_t r0 max_len Hold Hnew Hm. cbn [index_head snd]. split.
    + intros _. rewrite stable_read_run by exact Hm.
      rewrite (record_at_skip _ this
                 (set_hdr (unlock_word (hdr n))
                    (set_big_next (Some (fresh (dom h))) (overwritten n t r sz))))
        by (auto; apply lookup_insert_eq).
      unfold next_of. cbn [hdr next set_hdr set_big_next overwritten].
      rewrite Kb, Hbig.
      rewrite (record_at_found _ (fresh (dom h))
                 (big_node (version n) (value_start n) (size n) (next n) false)).
      * cbn [version size value_start big_node].
        now rewrite assign_NDB_MEMCPY by lia.
      * rewrite lookup_insert_ne by auto. apply lookup_insert_eq.
      * reflexivity.
      * exact Hold.
      * discriminate.
    + intros Hyes. congruence.
  - eexists _, _.
    split; [exact (write_unlock_replace can_overwrite h this n Hn Hwf Hlocked Hlatest
                     t r sz Hrep Hsz)|].
    intros t' fuel start_t r0 max_len Hold Hnew Hm. cbn [index_head snd]. split.
    + intros _. rewrite stable_read_run by exact Hm.
      rewrite (record_at_skip _ (fresh (dom h)) (big_node t r sz (Some this) true)).
      * change (next_of (big_node t r sz (Some this) true)) with (Some this).
        cbv beta iota.
        rewrite (record_at_found _ this
                   (set_hdr (unlock_word (set_latest_word false (hdr n))) n))
          by (auto; try discriminate; apply lookup_insert_eq).
        reflexivity.
      * rewrite lookup_insert_ne by auto. apply lookup_insert_eq.
      * reflexivity.
      * exact Hnew.
    + intros Hyes Hfit. destruct Hrep as [[_ Hb] | [Hno _]]; [lia | congruence].
Qed.

Lemma superseded_version_after_write_witness :
  exists res h',
    write_then_unlock S3.never_overwrite S3.this 20 (S3.bytes "hello") 5 S3.locked
    = Ok (res, h')
    /\ stable_read 2 (index_head S3.this res) 15 0 [] S3.npos h'
       = Ok (true, 10, S3.bytes "aa").
Proof.
  destruct (superseded_version_after_write S3.never_overwrite S3.locked S3.this
              S3.locked_node 20 (S3.bytes "hello") 5) as (res & h' & Hrun & Hread).
  - reflexivity.
  - reflexivity.
  - reflexivity.
  - reflexivity.
  - unfold max_node_size. lia.
  - exists res, h'. split; [exact Hrun|].
    apply (proj1 (Hread 15 0%nat 0 [] S3.npos ltac:(simpl; lia) ltac:(lia) eq_refl)).
    now left.
Defined.

(** X8: once a write has returned a replacement, the node written is a
    stale entry point: after the unlock, [stable_read] through the old
    pointer at any TID that node's version satisfies returns false and
    leaves the out-parameters alone, and [stable_is_latest_version] is
    false, so a caller that still holds the old pointer must go back to the
    index. *)
Theorem replaced_head_is_stale (can_overwrite : Z -> Z -> bool)
    (h : heap) (this : loc) (n : dbtuple) (t : Z) (r : list byte) (sz : Z) :
  h !! this = Some n ->
  node_wf n = true ->
  IsLocked (hdr n) = true ->
  IsLatest (hdr n) = true ->
  0 <= sz <= max_node_size ->
  (can_overwrite (version n) t = true /\ alloc_size n < sz)
  \/ (can_overwrite (version n) t = false
      /\ (IsBigType (hdr n) = false \/ alloc_size n < sz)) ->
  exists rep h',
    write_then_unlock can_overwrite this t r sz h
    = Ok ((negb (can_overwrite (version n) t), Some rep), h')
    /\ rep <> this
    /\ forall t' fuel start_t r0 max_len,
         version n <= t' -> 0 < max_len ->
         stable_read (S fuel) this t' start_t r0 max_len h' = Ok (false, start_t, r0)
         /\ stable_is_latest_version this t' h' = Ok false.
Proof.
  intros Hn Hwf Hlocked Hlatest Hsz Hrep.
  destruct (gone_flags n Hwf Hlocked) as (Gl & Gt & _ & _).
  eexists _, _.
  split; [exact (write_unlock_replace can_overwrite h this n Hn Hwf Hlocked Hlatest
                   t r sz Hrep Hsz)|].
  split; [now apply (fresh_other h this n)|].
  intros t' fuel start_t r0 max_len Hold Hm. split.
  - rewrite stable_read_run by exact Hm.
    now rewrite (record_at_stale _ this
                   (set_hdr (unlock_word (set_latest_word false (hdr n))) n))
      by (auto; apply lookup_insert_eq).
  - rewrite (stable_is_latest_version_run _ this
               (set_hdr (unlock_word (set_latest_word false (hdr n))) n))
      by apply lookup_insert_eq.
    cbn [hdr set_hdr]. rewrite Gt. now rewrite andb_false_r.
Qed.

Lemma replaced_head_is_stale_witness :
  exists rep h',
    write_then_unlock S3.always_overwrite S3.this 20 (S3.bytes "hello") 5 S3.locked
    = Ok ((false, Some rep), h')
    /\ stable_read 1 S3.this 20 77 (S3.bytes "old") S3.npos h'
       = Ok (false, 77, S3.bytes "old").
Proof.
  destruct (replaced_head_is_stale S3.always_overwrite S3.locked S3.this
              S3.locked_node 20 (S3.bytes "hello") 5) as (rep & h' & Hrun & _ & Hread).
  - reflexivity.
  - reflexivity.
  - reflexivity.
  - reflexivity.
  - unfold max_node_size. lia.
  - left. split; [reflexivity | simpl; lia].
  - exists rep, h'. split; [exact Hrun|].
    apply (Hread 20 0%nat 77 (S3.bytes "old") S3.npos); [simpl; lia | reflexivity].
Defined.

(** ** Well-formedness is kept by the writer *)

Lemma node_wf_intro (n : dbtuple) :
  is_u32 (hdr n) -> is_u64 (version n) -> is_u16 (size n) ->
  is_u16 (alloc_size n) ->
  Z.of_nat (length (value_start n)) = alloc_size n ->
  size n <= alloc_size n ->
  node_wf n = true.
Proof.
  unfold is_u32, is_u64, is_u16, node_wf, in_range. intros H1 H2 H3 H4 H5 H6.
  repeat (apply andb_true_intro; split);
    try apply Z.leb_le; try apply Z.ltb_lt; try apply Z.eqb_eq; lia.
Qed.

Lemma big_node_wf (v : Z) (value : list byte) (s : Z) (nx : option loc) (latest : bool) :
  is_u64 v -> 0 <= s <= max_node_size -> s <= Z.of_nat (length value) ->
  node_wf (big_node v value s nx latest) = true.
Proof.
  intros Hv Hs Hlen. pose proof (big_capacity_bounds s Hs) as Hcap.
  unfold max_node_size in *.
  apply node_wf_intro; cbn [hdr version size alloc_size value_start big_node].
  - destruct latest; unfold is_u32; vm_compute; split; congruence.
  - exact Hv.
  - unfold is_u16. pow2_literals. lia.
  - unfold is_u16. pow2_literals. lia.
  - rewrite length_NDB_MEMCPY; rewrite ?length_raw_bytes; try lia.
  - lia.
Qed.

Lemma overwritten_wf (n : dbtuple) (t : Z) (r : list byte) (sz : Z) :
  node_wf n = true -> is_u64 t -> 0 <= sz <= alloc_size n ->
  sz <= Z.of_nat (length r) ->
  node_wf (overwritten n t r sz) = true.
Proof.
  intros Hwf Ht Hsz Hlen.
  pose proof (node_wf_elim n Hwf) as (H1 & H2 & H3 & H4 & H5 & H6).
  unfold is_u16 in *.
  apply node_wf_intro; cbn [hdr version size alloc_size value_start overwritten];
    auto; try (unfold is_u16; lia).
  rewrite length_NDB_MEMCPY; lia.
Qed.

Lemma heap_wf_insert (h : heap) (p : loc) (m : dbtuple) :
  heap_wf h -> node_wf m = true -> heap_wf (<[p := m]> h).
Proof.
  intros Hh Hm q k. rewrite lookup_insert.
  destruct (decide (p = q)) as [->|Hne]; [now intros [= <-] | apply Hh].
Qed.

(** X9: [write_record_at] keeps every node of the heap well formed (each
    field within its C type, the buffer [alloc_size] bytes long and
    [size <= alloc_size]), changes no node other than the one written, and
    adds at most one node, at an address that held none. *)
Theorem write_keeps_heap_wf (can_overwrite : Z -> Z -> bool)
    (h : heap) (this : loc) (n : dbtuple) (t : Z) (r : list byte) (sz : Z) :
  heap_wf h ->
  h !! this = Some n ->
  IsLocked (hdr n) = true ->
  IsLatest (hdr n) = true ->
  is_u64 t ->
  0 <= sz <= max_node_size ->
  sz <= Z.of_nat (length r) ->
  exists res h',
    write_record_at can_overwrite this t r sz h = Ok (res, h')
    /\ heap_wf h'
    /\ (forall q m, q <> this -> h !! q = Some m -> h' !! q = Some m)
    /\ (forall q, is_Some (h' !! q) -> is_Some (h !! q) \/ q = fresh (dom h))
    /\ h !! fresh (dom h) = None.
Proof.
  intros Hh Hn Hlocked Hlatest Ht Hsz Hlen.
  pose proof (Hh this n Hn) as Hwf.
  pose proof (node_wf_elim n Hwf) as (H1 & H2 & H3 & H4 & H5 & H6).
  unfold is_u16 in H3, H4.
  assert (Hne : fresh (dom h) <> this) by now apply (fresh_other h this n).
  assert (Hold : 0 <= size n <= max_node_size)
    by (unfold max_node_size; pow2_literals; lia).
  assert (Hframe1 : forall m', forall q m, q <> this -> h !! q = Some m ->
                      (<[this := m']> h) !! q = Some m)
    by (intros m' q m Hq Hm; now rewrite lookup_insert_ne by auto).
  assert (Hframe2 : forall m' k', forall q m, q <> this -> h !! q = Some m ->
                      (<[this := m']> (<[fresh (dom h) := k']> h)) !! q = Some m).
  { intros m' k' q m Hq Hm. rewrite lookup_insert_ne by auto.
    rewrite lookup_insert_ne; [exact Hm|].
    intros <-. rewrite fresh_unused in Hm. discriminate. }
  assert (Hdom1 : forall m', forall q, is_Some ((<[this := m']> h) !! q) ->
                    is_Some (h !! q) \/ q = fresh (dom h)).
  { intros m' q. rewrite lookup_insert.
    destruct (decide (this = q)) as [<-|]; [left; now exists n | now left]. }
  assert (Hdom2 : forall m' k', forall q,
                    is_Some ((<[this := m']> (<[fresh (dom h) := k']> h)) !! q) ->
                    is_Some (h !! q) \/ q = fresh (dom h)).
  { intros m' k' q. rewrite lookup_insert.
    destruct (decide (this = q)) as [<-|]; [left; now exists n|].
    rewrite lookup_insert.
    destruct (decide (fresh (dom h) = q)) as [<-|]; [now right | now left]. }
  destruct (write_cases can_overwrite n t sz) as [[Hov Hfit] | [(Hov & Hbig & Hfit) | Hrep]].
  - eexists _, _.
    split; [apply (write_in_place can_overwrite h this n Hn Hwf Hlocked Hlatest
                     t r sz Hov); lia|].
    split; [apply heap_wf_insert; auto; apply overwritten_wf; auto; lia|].
    split; [apply Hframe1|]. split; [apply Hdom1 | apply fresh_unused].
  - eexists _, _.
    split; [apply (write_spill can_overwrite h this n Hn Hwf Hlocked Hlatest
                     t r sz Hov Hbig); lia|].
    split.
    { apply heap_wf_insert; [apply heap_wf_insert; auto|].
      - apply big_node_wf; auto. lia.
      - change (node_wf (set_big_next (Some (fresh (dom h))) (overwritten n t r sz)))
          with (node_wf (overwritten n t r sz)).
        apply overwritten_wf; auto. lia. }
    split; [apply Hframe2|]. split; [apply Hdom2 | apply fresh_unused].
  - exists (negb (can_overwrite (version n) t), Some (fresh (dom h))).
    eexists.
    split.
    { destruct Hrep as [[Hov Hb] | [Hov Hwhy]]; rewrite Hov.
      - exact (write_replace_overwrite can_overwrite h this n Hn Hwf Hlocked Hlatest
                 t r sz Hov (conj Hb (proj2 Hsz))).
      - exact (write_replace_spill can_overwrite h this n Hn Hlocked Hlatest
                 t r sz Hov Hwhy Hsz). }
    split.
    { apply heap_wf_insert; [apply heap_wf_insert; auto|].
      - apply big_node_wf; auto.
      - apply node_wf_intro; cbn [hdr version size alloc_size value_start set_hdr];
          auto; try (unfold is_u16; lia).
        now apply clear_latest_u32. }
    split; [apply Hframe2|]. split; [apply Hdom2 | apply fresh_unused].
Qed.

Lemma write_keeps_heap_wf_witness :
  exists res h',
    write_record_at S3.never_overwrite S3.this 20 (S3.bytes "bb") 2 S3.locked
    = Ok (res, h')
    /\ heap_wf h'.
Proof.
  destruct (write_keeps_heap_wf S3.never_overwrite S3.locked S3.this S3.locked_node
              20 (S3.bytes "bb") 2) as (res & h' & Hrun & Hwf & _).
  - intros p m. unfold S3.locked. rewrite lookup_insert.
    destruct (decide (S3.this = p)); [now intros [= <-] | now rewrite lookup_empty].
  - reflexivity.
  - reflexivity.
  - reflexivity.
  - unfold is_u64. pow2_literals. lia.
  - unfold max_node_size. lia.
  - simpl. lia.
  - exists res, h'. split; [exact Hrun | exact Hwf].
Defined.

(** X10: [write_record_at] asserts its preconditions and the node size
    bound.  On a node that is not locked, on a locked node that is not
    latest, and for a payload of more than 65535 bytes it ends in an
    invariant violation and returns nothing. *)
Theorem write_rejects_bad_calls (can_overwrite : Z -> Z -> bool)
    (h : heap) (this : loc) (n : dbtuple) (t : Z) (r : list byte) (sz : Z) :
  h !! this = Some n ->
  (IsLocked (hdr n) = false ->
   write_record_at can_overwrite this t r sz h = InvariantViolation)
  /\ (IsLocked (hdr n) = true -> IsLatest (hdr n) = false ->
      write_record_at can_overwrite this t r sz h = InvariantViolation)
  /\ (IsLocked (hdr n) = true -> IsLatest (hdr n) = true ->
      node_wf n = true -> max_node_size < sz ->
      write_record_at can_overwrite this t r sz h = InvariantViolation).
Proof.
  intros Hn. split; [|split].
  - intros Hl. unfold write_record_at.
    rewrite (bind_run _ _ h false h)
      by (apply read_run; rewrite (is_locked_run h this n Hn); now rewrite Hl).
    reflexivity.
  - intros Hl Hlatest. unfold write_record_at.
    rewrite (bind_run _ _ h true h)
      by (apply read_run; rewrite (is_locked_run h this n Hn); now rewrite Hl).
    rewrite (bind_run _ _ h tt h) by reflexivity.
    rewrite (bind_run _ _ h false h)
      by (apply read_run; rewrite (is_latest_run h this n Hn); now rewrite Hlatest).
    reflexivity.
  - intros Hl Hlatest Hwf Hbig. now apply (write_oversized can_overwrite h this n).
Qed.

Lemma write_rejects_bad_calls_witness :
  write_record_at S3.always_overwrite S3.this 20 (S3.bytes "bb") 2 S3.before
  = InvariantViolation
  /\ write_record_at S3.always_overwrite S3.this 20 (S3.bytes "bb") 65536 S3.locked
     = InvariantViolation.
Proof.
  split.
  - exact (proj1 (write_rejects_bad_calls S3.always_overwrite S3.before S3.this
                    S3.node 20 (S3.bytes "bb") 2 eq_refl) eq_refl).
  - apply (proj2 (proj2 (write_rejects_bad_calls S3.always_overwrite S3.locked S3.this
                           S3.locked_node 20 (S3.bytes "bb") 65536 eq_refl)));
      try reflexivity.
Defined.

(** ** What a reader sees along a chain *)

Lemma linked_null_inv (h : heap) (l : list (loc * dbtuple)) :
  linked h None l -> l = [].
Proof. now inversion 1. Qed.

Lemma record_at_linked (h : heap) (t max_len : Z) po l :
  linked h po l ->
  Forall (fun pn => IsLocked (hdr (snd pn)) = false) l ->
  forall p fuel start_t r require_latest,
    po = Some p ->
    (require_latest = true -> forall pn, head l = Some pn -> IsLatest (hdr (snd pn)) = true) ->
    (length l <= fuel)%nat ->
    record_at fuel p t start_t r max_len require_latest h
    = Ok (read_result (first_visible t l) max_len).
Proof.
  induction 1 as [|p0 n l Hn Hl IH]; intros Hun p fuel start_t r rl Hp Hhead Hfuel;
    [discriminate|].
  injection Hp as ->. apply Forall_cons in Hun as [Hu Hun]. cbn [snd] in Hu.
  destruct fuel as [|fuel]; [simpl in Hfuel; lia|].
  unfold first_visible. cbn [List.find snd].
  destruct (Z.leb_spec (version n) t) as [Hv|Hv].
  - rewrite (record_at_found h p n Hn Hu) by (auto; intros E; apply (Hhead E (p, n) eq_refl)).
    reflexivity.
  - rewrite (record_at_skip h p n Hn Hu) by exact Hv.
    destruct (next_of n) as [q|] eqn:Hq.
    + apply IH; [exact Hun | reflexivity | discriminate | simpl in Hfuel; lia].
    + now rewrite (linked_null_inv h l Hl).
Qed.

Lemma first_visible_greatest (t : Z) (l : list (loc * dbtuple)) (m : dbtuple) :
  Sorted Z.ge (versions l) ->
  first_visible t l = Some m ->
  version m <= t
  /\ forall pn, In pn l -> version (snd pn) <= t -> version (snd pn) <= version m.
Proof.
  intros Hs. apply Sorted_StronglySorted in Hs; [|intros x y z; lia].
  induction l as [|[p n] l IH]; [discriminate|].
  apply StronglySorted_inv in Hs as [Hs Hall]. rewrite List.Forall_forall in Hall.
  unfold first_visible. cbn [List.find snd].
  destruct (Z.leb_spec (version n) t) as [Hv|Hv].
  - intros [= <-]. split; [exact Hv|].
    intros pn [<- | Hin] _; [cbn; lia|].
    assert (version n >= version (snd pn)); [|lia].
    apply Hall. unfold versions. now apply (in_map (fun pn => version (snd pn))).
  - intros Hm. destruct (IH Hs Hm) as [Hle Hmax]. split; [exact Hle|].
    intros pn [<- | Hin] Hvis; [cbn in Hvis; lia | now apply Hmax].
Qed.

(** X11: on a chain of unlocked nodes whose head is latest, [stable_read]
    at TID [t] returns the first node along the chain with [version <= t]:
    its version and the first [min(size, max_len)] bytes of its buffer, or
    (true, MIN_TID, empty) when there is none.  When the versions do not
    increase from head to tail, that node carries the greatest version not
    above [t] of the whole chain. *)
Theorem stable_read_first_visible (h : heap) (p : loc) (l : list (loc * dbtuple))
    (t start_t : Z) (r : list byte) (max_len : Z) (fuel : nat) :
  linked h (Some p) l ->
  Forall (fun pn => IsLocked (hdr (snd pn)) = false) l ->
  (forall pn, head l = Some pn -> IsLatest (hdr (snd pn)) = true) ->
  0 < max_len ->
  (length l <= fuel)%nat ->
  stable_read fuel p t start_t r max_len h
  = Ok (read_result (first_visible t l) max_len)
  /\ (Sorted Z.ge (versions l) ->
      forall m, first_visible t l = Some m ->
        version m <= t
        /\ forall pn, In pn l -> version (snd pn) <= t ->
             version (snd pn) <= version m).
Proof.
  intros Hl Hun Hhead Hm Hfuel. split.
  - rewrite stable_read_run by exact Hm.
    now apply (record_at_linked h t max_len (Some p) l).
  - intros Hs m. now apply first_visible_greatest.
Qed.

Lemma stable_read_first_visible_witness :
  let old := mk_dbtuple HDR_TYPE_MASK 10 2 8 None (S3.bytes "aa" ++ raw_bytes 6) in
  let head := mk_dbtuple (Z.lor HDR_TYPE_MASK HDR_LATEST_MASK) 20 2 4
                         (Some 2%positive) (S3.bytes "bb" ++ raw_bytes 2) in
  let h : heap := <[1%positive := head]> (<[2%positive := old]> ∅) in
  stable_read 2 1%positive 15 0 [] S3.npos h = Ok (true, 10, S3.bytes "aa").
Proof.
  intros old head h.
  refine (proj1 (stable_read_first_visible h 1%positive
                   [(1%positive, head); (2%positive, old)] 15 0 [] S3.npos 2
                   _ _ _ _ _)).
  - apply linked_node; [reflexivity|].
    apply (linked_node h 2%positive old []); [reflexivity | apply linked_null].
  - repeat constructor.
  - intros pn [= <-]. reflexivity.
  - reflexivity.
  - simpl. lia.
Defined.

(** ** The chain after a write *)

Lemma linked_functional (h : heap) po l :
  linked h po l -> forall l', linked h po l' -> l = l'.
Proof.
  induction 1 as [|p n l Hn Hl IH]; intros l' Hl'.
  - now inversion Hl'.
  - inversion Hl' as [|p' n' l0 Hn' Hl0]; subst.
    rewrite Hn in Hn'. injection Hn' as <-. f_equal. now apply IH.
Qed.

Lemma linked_lookup (h : heap) po l :
  linked h po l -> forall q m, In (q, m) l -> h !! q = Some m.
Proof.
  induction 1 as [|p n l Hn Hl IH]; intros q m; [contradiction|].
  intros [[= <- <-] | Hin]; [exact Hn | now apply IH].
Qed.

Lemma linked_from (h : heap) po l :
  linked h po l -> forall q m, In (q, m) l ->
  exists l', linked h (Some q) l' /\ (length l' <= length l)%nat.
Proof.
  induction 1 as [|p n l Hn Hl IH]; intros q m; [contradiction|].
  intros [[= <- <-] | Hin].
  - exists ((p, n) :: l). split; [now constructor | lia].
  - destruct (IH q m Hin) as (l' & Hl' & Hlen). exists l'. split; [exact Hl'|].
    simpl. lia.
Qed.

(** A chain that ends at the null pointer passes through no node twice. *)
Lemma linked_acyclic (h : heap) (p : loc) (n : dbtuple) l :
  linked h (Some p) ((p, n) :: l) -> forall m, ~ In (p, m) l.
Proof.
  intros Hl m Hin. inversion Hl as [|p' n' l0 Hn Htail]; subst.
  destruct (linked_from h (next_of n) l Htail p m Hin) as (l' & Hl' & Hlen).
  pose proof (linked_functional h (Some p) _ Hl l' Hl') as E.
  rewrite <- E in Hlen. simpl in Hlen. lia.
Qed.

Lemma linked_frame (h h' : heap) po l :
  linked h po l ->
  (forall q m, In (q, m) l -> h' !! q = Some m) ->
  linked h' po l.
Proof.
  induction 1 as [|p n l Hn Hl IH]; intros Hsame; constructor.
  - apply Hsame. now left.
  - apply IH. intros q m Hin. apply Hsame. now right.
Qed.

Lemma Sorted_ge_replace_head (a b : Z) (vs : list Z) :
  a >= b -> Sorted Z.ge (b :: vs) -> Sorted Z.ge (a :: vs).
Proof.
  intros Hab Hs. apply Sorted_inv in Hs as [Hs Hhd].
  constructor; [exact Hs|].
  destruct vs as [|c vs]; constructor. apply HdRel_inv in Hhd. lia.
Qed.

(** X12: the chain a write leaves behind.  If before the write the chain
    from the locked head [this] is [(this, n) :: older], then after
    [write_record_at] and [unlock] the chain from the node the index points
    at ends in the same [older] nodes at the same addresses, with in front
    of them the new version [t] alone when the write overwrote in place,
    and [t] followed by the old version otherwise.  If the versions did not
    increase from head to tail before and [t] is not below the old head
    version, they do not increase afterwards. *)
Theorem chain_after_write (can_overwrite : Z -> Z -> bool)
    (h : heap) (this : loc) (n : dbtuple) (older : list (loc * dbtuple))
    (t : Z) (r : list byte) (sz : Z) :
  linked h (Some this) ((this, n) :: older) ->
  node_wf n = true ->
  IsLocked (hdr n) = true ->
  IsLatest (hdr n) = true ->
  0 <= sz <= max_node_size ->
  exists res h' front,
    write_then_unlock can_overwrite this t r sz h = Ok (res, h')
    /\ linked h' (Some (index_head this res)) (front ++ older)
    /\ versions front
       = (if can_overwrite (version n) t && (sz <=? alloc_size n)
          then [t] else [t; version n])
    /\ Forall (fun pn => IsLocked (hdr (snd pn)) = false) front
    /\ (forall pn, head front = Some pn -> IsLatest (hdr (snd pn)) = true)
    /\ (Sorted Z.ge (versions ((this, n) :: older)) -> version n <= t ->
        Sorted Z.ge (versions (front ++ older))).
Proof.
  intros Hchain Hwf Hlocked Hlatest Hsz.
  pose proof Hchain as Hinv. inversion Hinv as [|p' n' l0 Hn Htail]; subst.
  destruct (kept_flags n Hwf Hlocked Hlatest) as (Kl & Kt & Kb & _).
  destruct (gone_flags n Hwf Hlocked) as (Gl & Gt & Gb & _).
  assert (Hne : fresh (dom h) <> this) by now apply (fresh_other h this n).
  assert (Hold1 : forall m', linked (<[this := m']> h) (next_of n) older).
  { intros m'. apply (linked_frame h _ _ _ Htail). intros q m Hin.
    rewrite lookup_insert_ne; [now apply (linked_lookup h _ _ Htail)|].
    intros <-. now apply (linked_acyclic h this n older Hchain m). }
  assert (Hold2 : forall m' k',
            linked (<[this := m']> (<[fresh (dom h) := k']> h)) (next_of n) older).
  { intros m' k'. apply (linked_frame h _ _ _ Htail). intros q m Hin.
    pose proof (linked_lookup h _ _ Htail q m Hin) as Hq.
    rewrite lookup_insert_ne
      by (intros <-; now apply (linked_acyclic h this n older Hchain m)).
    rewrite lookup_insert_ne; [exact Hq|].
    intros <-. rewrite fresh_unused in Hq. discriminate. }
  assert (Hsorted2 : Sorted Z.ge (versions ((this, n) :: older)) -> version n <= t ->
                     Sorted Z.ge (t :: version n :: versions older)).
  { intros Hs Hle. constructor; [exact Hs|]. constructor. lia. }
  destruct (write_cases can_overwrite n t sz) as [[Hov Hfit] | [(Hov & Hbig & Hfit) | Hrep]].
  - exists (false, None), (<[this := set_hdr (unlock_word (hdr n)) (overwritten n t r sz)]> h),
      [(this, set_hdr (unlock_word (hdr n)) (overwritten n t r sz))].
    split; [apply (write_unlock_in_place can_overwrite h this n Hn Hwf Hlocked Hlatest
                     t r sz Hov); lia|].
    split.
    { cbn [index_head snd app]. constructor; [apply lookup_insert_eq|].
      replace (next_of (set_hdr (unlock_word (hdr n)) (overwritten n t r sz)))
        with (next_of n)
        by (unfold next_of; cbn [hdr next set_hdr overwritten]; now rewrite Kb).
      apply Hold1. }
    split; [rewrite Hov; replace (sz <=? alloc_size n) with true
              by (symmetry; now apply Z.leb_le); reflexivity|].
    split; [repeat constructor; exact Kl|].
    split; [intros pn [= <-]; exact Kt|].
    intros Hs Hle. cbn [app versions map snd version set_hdr overwritten].
    apply (Sorted_ge_replace_head t (version n)); [lia | exact Hs].
  - exists (true, None),
      (<[this := set_hdr (unlock_word (hdr n))
                   (set_big_next (Some (fresh (dom h))) (overwritten n t r sz))]>
         (<[fresh (dom h) :=
              big_node (version n) (value_start n) (size n) (next n) false]> h)),
      [(this, set_hdr (unlock_word (hdr n))
                (set_big_next (Some (fresh (dom h))) (overwritten n t r sz)));
       (fresh (dom h), big_node (version n) (value_start n) (size n) (next n) false)].
    split; [apply (write_unlock_spill can_overwrite h this n Hn Hwf Hlocked Hlatest
                     t r sz Hov Hbig); lia|].
    split.
    { cbn [index_head snd app]. constructor; [apply lookup_insert_eq|].
      replace (next_of (set_hdr (unlock_word (hdr n))
                          (set_big_next (Some (fresh (dom h))) (overwritten n t r sz))))
        with (Some (fresh (dom h)))
        by (unfold next_of; cbn [hdr next set_hdr set_big_next overwritten];
            now rewrite Kb, Hbig).
      constructor; [rewrite lookup_insert_ne by auto; apply lookup_insert_eq|].
      replace (next_of (big_node (version n) (value_start n) (size n) (next n) false))
        with (next_of n) by (unfold next_of; rewrite Hbig; reflexivity).
      apply Hold2. }
    split; [now rewrite Hov|].
    split; [repeat constructor; exact Kl|].
    split; [intros pn [= <-]; exact Kt|].
    exact Hsorted2.
  - exists (negb (can_overwrite (version n) t), Some (fresh (dom h))),
      (<[this := set_hdr (unlock_word (set_latest_word false (hdr n))) n]>
         (<[fresh (dom h) := big_node t r sz (Some this) true]> h)),
      [(fresh (dom h), big_node t r sz (Some this) true);
       (this, set_hdr (unlock_word (set_latest_word false (hdr n))) n)].
    split; [exact (write_unlock_replace can_overwrite h this n Hn Hwf Hlocked Hlatest
                     t r sz Hrep Hsz)|].
    split.
    { cbn [index_head snd app].
      constructor; [rewrite lookup_insert_ne by auto; apply lookup_insert_eq|].
      change (next_of (big_node t r sz (Some this) true)) with (Some this).
      constructor; [apply lookup_insert_eq|].
      replace (next_of (set_hdr (unlock_word (set_latest_word false (hdr n))) n))
        with (next_of n) by (unfold next_of; cbn [hdr next set_hdr]; now rewrite Gb).
      apply Hold2. }
    split.
    { destruct Hrep as [[Hov Hb] | [Hov Hwhy]]; rewrite Hov; [|reflexivity].
      replace (sz <=? alloc_size n) with false by (symmetry; apply Z.leb_gt; lia).
      reflexivity. }
    split; [repeat constructor; exact Gl|].
    split; [intros pn [= <-]; reflexivity|].
    exact Hsorted2.
Qed.

Lemma chain_after_write_witness :
  exists res h' front,
    write_then_unlock S3.never_overwrite S3.this 20 (S3.bytes "bb") 2 S3.locked
    = Ok (res, h')
    /\ linked h' (Some (index_head S3.this res)) (front ++ [])
    /\ versions front = [20; 10].
Proof.
  destruct (chain_after_write S3.never_overwrite S3.locked S3.this S3.locked_node []
              20 (S3.bytes "bb") 2) as (res & h' & front & Hrun & Hl & Hv & _).
  - apply linked_node; [reflexivity | apply linked_null].
  - reflexivity.
  - reflexivity.
  - reflexivity.
  - unfold max_node_size. lia.
  - exists res, h', front. split; [exact Hrun|]. split; [exact Hl | exact Hv].
Defined.

(** ** The [next] link *)

(** X13: the [next] slot belongs to big nodes.  On a big node [set_next(p)]
    changes the link and nothing else, [get_next()] then returns [p], and
    [clear_next] makes it null.  On a small node [set_next] stops at its
    INVARIANT, [clear_next] changes nothing, [get_next()] is null, and a
    reader that finds the node too new ends the walk there with the
    "deleted at MIN_TID" result: a small node never leads to older
    versions. *)
Theorem next_link_of_big_nodes_only (h : heap) (this : loc) (n : dbtuple)
    (p : option loc) :
  h !! this = Some n ->
  (IsBigType (hdr n) = true ->
   (set_next this p ;;; read (get_next_now this)) h
   = Ok (p, <[this := set_big_next p n]> h)
   /\ (clear_next this ;;; read (get_next_now this)) h
      = Ok (None, <[this := set_big_next None n]> h)
   /\ get_next_now this h = Ok (next n))
  /\ (IsBigType (hdr n) = false ->
      set_next this p h = InvariantViolation
      /\ clear_next this h = Ok (tt, h)
      /\ get_next_now this h = Ok None
      /\ forall fuel t start_t r max_len,
           IsLocked (hdr n) = false -> t < version n -> 0 < max_len ->
           stable_read (S fuel) this t start_t r max_len h = Ok (true, MIN_TID, [])).
Proof.
  intros Hn.
  assert (Hget : forall (h' : heap) n', h' !! this = Some n' ->
            get_next_now this h'
            = Ok (if IsBigType (hdr n') then next n' else None)).
  { intros h' n' Hn'. unfold get_next_now.
    rewrite (rbind_run _ _ h' (IsBigType (hdr n'))) by now apply is_big_type_run.
    destruct (IsBigType (hdr n')); [|reflexivity].
    now rewrite (rbind_run _ _ h' n') by now apply deref_run. }
  split.
  - intros Hbig.
    assert (Hafter : forall q,
              read (get_next_now this) (<[this := set_big_next q n]> h)
              = Ok (q, <[this := set_big_next q n]> h)).
    { intros q. apply read_run.
      rewrite (Hget _ (set_big_next q n)) by apply lookup_insert_eq.
      cbn [hdr next set_big_next]. now rewrite Hbig. }
    split; [|split].
    + rewrite (bind_run _ _ h tt (<[this := set_big_next p n]> h)); [apply Hafter|].
      unfold set_next.
      rewrite (bind_run _ _ h true h)
        by (apply read_run; rewrite (is_big_type_run h this n Hn); now rewrite Hbig).
      rewrite (bind_run _ _ h tt h) by reflexivity.
      now apply modify_run.
    + rewrite (bind_run _ _ h tt (<[this := set_big_next None n]> h)); [apply Hafter|].
      unfold clear_next.
      rewrite (bind_run _ _ h true h)
        by (apply read_run; rewrite (is_big_type_run h this n Hn); now rewrite Hbig).
      now apply modify_run.
    + rewrite (Hget h n Hn). now rewrite Hbig.
  - intros Hsmall. split; [|split; [|split]].
    + unfold set_next.
      rewrite (bind_run _ _ h false h)
        by (apply read_run; rewrite (is_big_type_run h this n Hn); now rewrite Hsmall).
      reflexivity.
    + unfold clear_next.
      now rewrite (bind_run _ _ h false h)
        by (apply read_run; rewrite (is_big_type_run h this n Hn); now rewrite Hsmall).
    + rewrite (Hget h n Hn). now rewrite Hsmall.
    + intros fuel t start_t r max_len Hl Hv Hm.
      rewrite stable_read_run by exact Hm.
      rewrite (record_at_skip h this n Hn Hl) by exact Hv.
      unfold next_of. now rewrite Hsmall.
Qed.

Lemma next_link_of_big_nodes_only_witness :
  (set_next S3.this (Some 9%positive) ;;; read (get_next_now S3.this)) S3.before
  = Ok (Some 9%positive,
        <[S3.this := set_big_next (Some 9%positive) S3.node]> S3.before)
  /\ set_next 1%positive None (<[1%positive := first_node false 8]> ∅)
     = InvariantViolation.
Proof.
  split.
  - exact (proj1 (proj1 (next_link_of_big_nodes_only S3.before S3.this S3.node
                           (Some 9%positive) eq_refl) eq_refl)).
  - exact (proj1 (proj2 (next_link_of_big_nodes_only
                           (<[1%positive := first_node false 8]> ∅) 1%positive
                           (first_node false 8) None eq_refl) eq_refl)).
Defined.

(** ** Allocation, seen by a reader *)

(** X14: [alloc(version, value, sz, next, set_latest)] with
    [sz <= 65535] puts a big unlocked node at an address that held none and
    leaves every other node as it was.  Entered as a head, the new node
    answers a [stable_read] at any TID from [version] on with ([version],
    the first [min(sz, max_len)] bytes of [value]) when it was allocated
    latest, and with false when it was not.  A size above 65535 is refused
    by the INVARIANT, by [alloc] and by [alloc_first] alike. *)
Theorem alloc_then_read (ver : Z) (value : list byte) (sz : Z)
    (nx : option loc) (set_latest : bool) (h : heap) :
  (0 <= sz <= max_node_size ->
   sz <= Z.of_nat (length value) ->
   exists p h',
     alloc ver value sz nx set_latest h = Ok (p, h')
     /\ h !! p = None
     /\ (forall q m, h !! q = Some m -> h' !! q = Some m)
     /\ (exists m, h' !! p = Some m /\ IsBigType (hdr m) = true
                   /\ IsLocked (hdr m) = false /\ IsLatest (hdr m) = set_latest
                   /\ next_of m = nx)
     /\ forall t fuel start_t r max_len,
          ver <= t -> 0 < max_len ->
          stable_read (S fuel) p t start_t r max_len h'
          = if set_latest
            then Ok (true, ver, take (Z.to_nat (Z.min sz max_len)) value)
            else Ok (false, start_t, r))
  /\ (max_node_size < sz ->
      alloc ver value sz nx set_latest h = InvariantViolation
      /\ forall big, alloc_first big sz h = InvariantViolation).
Proof.
  split.
  - intros Hsz Hlen. exists (fresh (dom h)), (<[fresh (dom h) := big_node ver value sz nx set_latest]> h).
    split; [now apply alloc_run|].
    split; [apply fresh_unused|].
    split.
    { intros q m Hq. rewrite lookup_insert_ne; [exact Hq|].
      intros <-. rewrite fresh_unused in Hq. discriminate. }
    split.
    { exists (big_node ver value sz nx set_latest).
      split; [apply lookup_insert_eq|]. now destruct set_latest. }
    intros t fuel start_t r max_len Hv Hm.
    rewrite stable_read_run by exact Hm. destruct set_latest.
    + rewrite (record_at_found _ (fresh (dom h)) (big_node ver value sz nx true))
        by (auto; apply lookup_insert_eq).
      cbn [big_node version size value_start].
      now rewrite assign_NDB_MEMCPY by lia.
    + now rewrite (record_at_stale _ (fresh (dom h)) (big_node ver value sz nx false))
        by (auto; apply lookup_insert_eq).
  - intros Hbig. unfold max_node_size in Hbig. split.
    + unfold alloc, bind at 1.
      replace (sz <=? max_node_size) with false
        by (symmetry; apply Z.leb_gt; unfold max_node_size; lia).
      reflexivity.
    + intros big. unfold alloc_first, bind at 1.
      replace (sz <=? max_node_size) with false
        by (symmetry; apply Z.leb_gt; unfold max_node_size; lia).
      reflexivity.
Qed.

Lemma alloc_then_read_witness :
  exists p h',
    alloc 10 (S3.bytes "abc") 3 None true ∅ = Ok (p, h')
    /\ stable_read 1 p 20 0 [] 2 h' = Ok (true, 10, S3.bytes "ab").
Proof.
  destruct (proj1 (alloc_then_read 10 (S3.bytes "abc") 3 None true ∅))
    as (p & h' & Hrun & _ & _ & _ & Hread).
  - unfold max_node_size. lia.
  - simpl. lia.
  - exists p, h'. split; [exact Hrun|].
    apply (Hread 20 0%nat 0 [] 2); lia.
Defined.

(** ** Logical deletes *)

Lemma latest_value_is_nil_run (h : heap) this n :
  h !! this = Some n ->
  latest_value_is_nil this h = Ok (IsLatest (hdr n) && (size n =? 0)).
Proof.
  intros Hn. unfold latest_value_is_nil.
  rewrite (rbind_run _ _ h (IsLatest (hdr n))) by now apply is_latest_run.
  now rewrite (rbind_run _ _ h n) by now apply deref_run.
Qed.

(** X15: after [write_record_at(txn, t, r, sz)] and [unlock], both
    [latest_value_is_nil] and [stable_latest_value_is_nil] on the node the
    index points at are true exactly when the write was a logical delete
    ([sz = 0]), on every path of the write. *)
Theorem nil_iff_logical_delete (can_overwrite : Z -> Z -> bool)
    (h : heap) (this : loc) (n : dbtuple) (t : Z) (r : list byte) (sz : Z) :
  h !! this = Some n ->
  node_wf n = true ->
  IsLocked (hdr n) = true ->
  IsLatest (hdr n) = true ->
  0 <= sz <= max_node_size ->
  exists res h',
    write_then_unlock can_overwrite this t r sz h = Ok (res, h')
    /\ latest_value_is_nil (index_head this res) h' = Ok (sz =? 0)
    /\ stable_latest_value_is_nil (index_head this res) h' = Ok (sz =? 0).
Proof.
  intros Hn Hwf Hlocked Hlatest Hsz.
  destruct (kept_flags n Hwf Hlocked Hlatest) as (Kl & Kt & _ & _).
  assert (Hne : fresh (dom h) <> this) by now apply (fresh_other h this n).
  destruct (write_cases can_overwrite n t sz) as [[Hov Hfit] | [(Hov & Hbig & Hfit) | Hrep]].
  - eexists _, _.
    split; [apply (write_unlock_in_place can_overwrite h this n Hn Hwf Hlocked Hlatest
                     t r sz Hov); lia|].
    cbn [index_head snd].
    rewrite (latest_value_is_nil_run _ this
               (set_hdr (unlock_word (hdr n)) (overwritten n t r sz)))
      by apply lookup_insert_eq.
    rewrite (stable_latest_value_is_nil_run _ this
               (set_hdr (unlock_word (hdr n)) (overwritten n t r sz)))
      by apply lookup_insert_eq.
    cbn [hdr size set_hdr overwritten]. now rewrite Kl, Kt.
  - eexists _, _.
    split; [apply (write_unlock_spill can_overwrite h this n Hn Hwf Hlocked Hlatest
                     t r sz Hov Hbig); lia|].
    cbn [index_head snd].
    rewrite (latest_value_is_nil_run _ this
               (set_hdr (unlock_word (hdr n))
                  (set_big_next (Some (fresh (dom h))) (overwritten n t r sz))))
      by apply lookup_insert_eq.
    rewrite (stable_latest_value_is_nil_run _ this
               (set_hdr (unlock_word (hdr n))
                  (set_big_next (Some (fresh (dom h))) (overwritten n t r sz))))
      by apply lookup_insert_eq.
    cbn [hdr size set_hdr set_big_next overwritten]. now rewrite Kl, Kt.
  - eexists _, _.
    split; [exact (write_unlock_replace can_overwrite h this n Hn Hwf Hlocked Hlatest
                     t r sz Hrep Hsz)|].
    cbn [index_head snd].
    assert (Hrepl : (<[this := set_hdr (unlock_word (set_latest_word false (hdr n))) n]>
                       (<[fresh (dom h) := big_node t r sz (Some this) true]> h))
                    !! fresh (dom h) = Some (big_node t r sz (Some this) true))
      by (rewrite lookup_insert_ne by auto; apply lookup_insert_eq).
    rewrite (latest_value_is_nil_run _ _ _ Hrepl).
    rewrite (stable_latest_value_is_nil_run _ _ _ Hrepl).
    split; reflexivity.
Qed.

Lemma nil_iff_logical_delete_witness :
  exists res h',
    write_then_unlock S3.always_overwrite S3.this 30 [] 0 S3.locked = Ok (res, h')
    /\ latest_value_is_nil (index_head S3.this res) h' = Ok true.
Proof.
  destruct (nil_iff_logical_delete S3.always_overwrite S3.locked S3.this S3.locked_node
              30 [] 0) as (res & h' & Hrun & Hnil & _).
  - reflexivity.
  - reflexivity.
  - reflexivity.
  - reflexivity.
  - unfold max_node_size. lia.
  - exists res, h'. split; [exact Hrun | exact Hnil].
Defined.
